(** * wiwii/cron: the scheduling engine of [cron.go], embedded in Rocq

    The development follows [cron.go] top to bottom: the data model
    ([Job], [Schedule], [Entry], [Cron]), the [byTime] ordering with
    [sort.Sort], the caller-side API ([Schedule], [Entries], [Start],
    [Stop], [Remove*]), the body of [run] split by [select] case, the
    recovery wrapper [runWithRecovery], and a step function that composes
    callers and loop over the unbuffered channels. *)

From Stdlib Require Import ZArith Lia.
From stdpp Require Import list strings numbers sorting.

(** ** Values of the Go runtime the engine touches *)

(** [time.Time], as the instant it denotes (nanoseconds since
    January 1, year 1, 00:00:00 UTC; negative before it) together
    with the location used to present it.  [IsZero], [Before] and
    [After] compare instants only, and [In] keeps the instant.  Every
    time the engine handles comes out of [In], which drops the monotonic
    clock reading, or out of a schedule. *)
Module GoTime.
Definition Location := string.

Record Time := mk { instant : Z; zone : Location }.

(** the zero value of [time.Time] *)
Definition zero : Time := mk 0 "UTC".

Definition IsZero (t : Time) : bool := (instant t =? 0)%Z.
Definition Before (t u : Time) : bool := (instant t <? instant u)%Z.
Definition After (t u : Time) : bool := (instant u <? instant t)%Z.
Definition In (t : Time) (loc : Location) : Time := mk (instant t) loc.


End GoTime.
Import GoTime.

(** [interface{}] values that reach the engine: the dynamic types the
    code asserts ([int32], [string], [[]interface{}], [[]byte]) and
    anything else. *)
#[warnings="-register-all"] Inductive Value :=
| VInt32 (n : Z)
| VString (s : string)
| VBytes (b : string)
| VSlice (vs : list Value)
| VOther (tag : nat).

(** [int32] arithmetic wraps around. *)
Definition wrap32 (z : Z) : Z := ((z + 2 ^ 31) `mod` 2 ^ 32 - 2 ^ 31)%Z.

(** Handles of [log.Logger] values; the logger of package [log] is
    [DefaultLogger]. *)
Definition Logger := nat.

Inductive Sink :=
| DefaultLogger
| ErrorLogger (l : Logger).

(** What a goroutine leaves behind: calls of [Printf] on a logger and
    whatever else a job does.  A computation reads the history so far and
    extends it. *)
Inductive Effect :=
| Printf (to : Sink) (format : string) (args : list Value)
| External (v : Value).

Definition World := list Effect.

(** A Go call either returns or is still panicking, with a value, when
    it unwinds. *)
Inductive Result (A : Type) :=
| Ok (a : A)
| Panicking (r : Value).
Arguments Ok {A} a.
Arguments Panicking {A} r.

Definition Exec (A : Type) : Type := World → Result A * World.

Definition ret {A} (a : A) : Exec A := λ w, (Ok a, w).

(** [defer func() { if r := recover(); r != nil { handler r } }(); body]:
    when [body] returns, [recover] yields nil and the deferred function
    does nothing; when [body] panics, [recover] yields the panic value
    (never nil: [panic(nil)] raises a [*runtime.PanicNilError]), the
    panicking sequence stops, and the function returns what the handler
    leaves. *)
Definition defer_recover (handler : Value → Exec unit) (body : Exec unit)
  : Exec unit :=
  λ w, match body w with
       | (Ok tt, w') => (Ok tt, w')
       | (Panicking r, w') => handler r w'
       end.

(** What becomes of a goroutine started by [go f(...)]: when [f]
    returns the goroutine ends; when [f] is still panicking as it unwinds
    the whole program dies, the loop with it. *)
Inductive Fate :=
| Ends
| ProgramDies (r : Value).

Definition go (f : Exec unit) : World → Fate * World :=
  λ w, match f w with
       | (Ok tt, w') => (Ends, w')
       | (Panicking r, w') => (ProgramDies r, w')
       end.

(** [type Job interface { Run(...interface{}) }] *)
Module Job.
Record t := mk { Run : list Value → Exec unit }.
End Job.

(** [type Schedule interface { Next(time.Time) time.Time }] *)
Module Schedule.
Record t := mk { Next : Time → Time }.
End Schedule.

(** ** Entries *)

Module Entry.
Record t := mk {
    Schedule : Schedule.t;
    Next : Time;
    Prev : Time;
    Job : Job.t;
    Id : Z;
    ArgLen : Z;
    Tag : string;
    Task : string;
    Params : string
}.

(** [&Entry{Schedule: schedule, Job: cmd}]: the other fields hold
    their zero values. *)
Definition new (schedule : Schedule.t) (cmd : Job.t) : t :=
  mk schedule GoTime.zero GoTime.zero cmd 0 0 "" "" "".

Definition set_Next (v : Time) (e : t) : t :=
  mk (Schedule e) v (Prev e) (Job e) (Id e) (ArgLen e) (Tag e) (Task e) (Params e).
Definition set_Prev (v : Time) (e : t) : t :=
  mk (Schedule e) (Next e) v (Job e) (Id e) (ArgLen e) (Tag e) (Task e) (Params e).
Definition set_Id (v : Z) (e : t) : t :=
  mk (Schedule e) (Next e) (Prev e) (Job e) v (ArgLen e) (Tag e) (Task e) (Params e).
Definition set_ArgLen (v : Z) (e : t) : t :=
  mk (Schedule e) (Next e) (Prev e) (Job e) (Id e) v (Tag e) (Task e) (Params e).
Definition set_Tag (v : string) (e : t) : t :=
  mk (Schedule e) (Next e) (Prev e) (Job e) (Id e) (ArgLen e) v (Task e) (Params e).
Definition set_Task (v : string) (e : t) : t :=
  mk (Schedule e) (Next e) (Prev e) (Job e) (Id e) (ArgLen e) (Tag e) v (Params e).
Definition set_Params (v : string) (e : t) : t :=
  mk (Schedule e) (Next e) (Prev e) (Job e) (Id e) (ArgLen e) (Tag e) (Task e) v.
End Entry.

(** A [*Entry] held by the engine: the address of the record and the
    record it points to.  Every record is allocated by [Schedule] or by
    [entrySnapshot], its pointer is stored in one slice only and never
    handed to a caller, so the slot that holds the pointer owns the
    record and a write through the pointer is a write to the slot. *)
Record EntryPtr := Ptr { addr : nat; deref : Entry.t }.

Definition store (f : Entry.t → Entry.t) (p : EntryPtr) : EntryPtr :=
  Ptr (addr p) (f (deref p)).

(** ** [byTime]: sorting the entry array by time, zero time at the end *)

Module byTime.
(** [Less(i, j)], on the elements [s[i]] and [s[j]] *)
Definition Less (si sj : EntryPtr) : bool :=
  if IsZero (Entry.Next (deref si)) then false
  else if IsZero (Entry.Next (deref sj)) then true
  else Before (Entry.Next (deref si)) (Entry.Next (deref sj)).

Definition Len (s : list EntryPtr) : nat := length s.

(** [s[i], s[j] = s[j], s[i]]; [None] is the index-out-of-range panic. *)
Definition Swap (s : list EntryPtr) (i j : nat) : option (list EntryPtr) :=
  sj ← s !! j;
  si ← s !! i;
  Some (<[j:=si]> (<[i:=sj]> s)).
End byTime.

(** [sort.Sort] of the standard library.  On a short slice it runs
    [insertionSort]: element [i] moves left by swaps with its left
    neighbour while it is [Less] than that neighbour; [sift] is that
    inner loop, over the reversed prefix [data[a:i]].  On a long slice it
    runs another algorithm under the same contract: the result is a
    rearrangement of the input in which no element is [Less] than an
    earlier one.  The properties below use [Sort] through that contract
    only ([Sort_perm], [Sort_ordered]). *)
Module sort.
Fixpoint sift {A} (less : A → A → bool) (x : A) (rp : list A) : list A :=
  match rp with
  | [] => [x]
  | y :: rp' => if less x y then y :: sift less x rp' else x :: rp
  end.

Definition insertionSort {A} (less : A → A → bool) (data : list A) : list A :=
  reverse (foldl (λ rp x, sift less x rp) [] data).

Definition Sort {A} (less : A → A → bool) (data : list A) : list A :=
  insertionSort less data.
End sort.

(** ** The engine *)

(** What a caller sends on the channels [add], [snapshot], [remove] and
    [stop]. *)
Inductive Send :=
| to_add (entry : EntryPtr)
| to_snapshot
| to_remove (id : Z)
| to_stop.

(** What one [select] of the loop receives: the time read from
    [timer.C], or a message, with the reading of [c.now()] the case
    takes. *)
Inductive Recv :=
| from_timer (now : Time)
| from_add (newEntry : EntryPtr) (clock : Time)
| from_snapshot
| from_remove (targetId : Z)
| from_stop.

(** How a [select] case leaves the inner loop. *)
Inductive Ctl := Continue | Break | Return.

(** [go c.runWithRecovery(e.Job, args...)]: the arguments are evaluated
    at the [go] statement; [by_entry] records the entry [e] being fired,
    as it is at that statement. *)
Record Spawn := Go { by_entry : EntryPtr; job : Job.t; args : list Value }.

Definition assert_int32 (v : Value) : option Z :=
  match v with VInt32 n => Some n | _ => None end.
Definition assert_string (v : Value) : option string :=
  match v with VString s => Some s | _ => None end.
Definition assert_slice (v : Value) : option (list Value) :=
  match v with VSlice vs => Some vs | _ => None end.

(** [type FuncJob func(...interface{})], with
    [func (f FuncJob) Run(i ...interface{}) { f(i...) }] *)
Definition FuncJob (f : list Value → Exec unit) : Job.t := Job.mk f.

Module Cron.
Record t := mk {
    id : Z;
    entries : list EntryPtr;
    running : bool;
    ErrorLog : option Logger;
    location : Location
}.

Definition set_id (v : Z) (c : t) : t :=
  mk v (entries c) (running c) (ErrorLog c) (location c).
Definition set_entries (v : list EntryPtr) (c : t) : t :=
  mk (id c) v (running c) (ErrorLog c) (location c).
Definition set_running (v : bool) (c : t) : t :=
  mk (id c) (entries c) v (ErrorLog c) (location c).

Definition NewWithLocation (location : Location) : t :=
  mk 0 [] false None location.

Definition nextId (c : t) : Z * t :=
  let oid := id c in
  (oid, set_id (wrap32 (id c + 1)) c).

(** The head of [Schedule]: the type assertions and the switch on
    [len(extArgsInner)].  [None] is a run-time panic (index out of range,
    failed assertion). *)
Definition Schedule_extArgs (entry : Entry.t) (extArgs : list Value)
  : option Entry.t :=
  extArgsInner ← extArgs !! 0%nat ≫= assert_slice;
  match extArgsInner with
  | [a0] =>
      n ← assert_int32 a0;
      Some (Entry.set_ArgLen n entry)
  | [a0; a1] =>
      n ← assert_int32 a0;
      tag ← assert_string a1;
      Some (Entry.set_Tag tag (Entry.set_ArgLen n entry))
  | [a0; a1; a2] =>
      n ← assert_int32 a0;
      tag ← assert_string a1;
      task ← assert_string a2;
      Some (Entry.set_Task task (Entry.set_Tag tag (Entry.set_ArgLen n entry)))
  | [a0; a1; a2; a3] =>
      n ← assert_int32 a0;
      tag ← assert_string a1;
      task ← assert_string a2;
      params ← assert_string a3;
      Some (Entry.set_Params params
              (Entry.set_Task task (Entry.set_Tag tag (Entry.set_ArgLen n entry))))
  | _ => Some entry
  end.

(** [Schedule]; [a] is the address of the [Entry] it allocates.  The
    result is the engine as the caller leaves it and the message sent to
    the loop, if any. *)
Definition Schedule (c : t) (a : nat) (schedule : Schedule.t) (cmd : Job.t)
    (extArgs : list Value) : option (t * option Send) :=
  entry ← Schedule_extArgs (Entry.new schedule cmd) extArgs;
  if negb (running c) then
    let '(oid, c1) := nextId c in
    Some (set_entries (entries c1 ++ [Ptr a (Entry.set_Id oid entry)]) c1, None)
  else
    Some (c, Some (to_add (Ptr a entry))).

(** [entrySnapshot]: one new [Entry] per entry, at addresses [a],
    [a+1], ... *)
Definition entrySnapshot (c : t) (a : nat) : list EntryPtr :=
  imap (λ i e,
          Ptr (a + i)
              (Entry.mk (Entry.Schedule (deref e)) (Entry.Next (deref e))
                        (Entry.Prev (deref e)) (Entry.Job (deref e))
                        (Entry.Id (deref e)) (Entry.ArgLen (deref e))
                        (Entry.Tag (deref e)) "" ""))
       (entries c).

(** [Entries]: the snapshot when stopped, the request sent when
    running (the reply is the loop's, see [run_select]). *)
Definition Entries (c : t) (a : nat) : list EntryPtr + Send :=
  if running c then inr to_snapshot else inl (entrySnapshot c a).

(** [Start]: [true] when [go c.run()] is executed. *)
Definition Start (c : t) : t * bool :=
  if running c then (c, false) else (set_running true c, true).

Definition Stop (c : t) : t * option Send :=
  if negb (running c) then (c, None)
  else (set_running false c, Some to_stop).

Definition RemoveAll (c : t) : t * option Send :=
  if negb (running c) then (set_entries [] c, None)
  else (c, Some (to_remove (-1))).

Definition Remove (c : t) (id : Z) : t * option Send :=
  if negb (running c) then
    if (length (entries c) <=? 0)%nat then (c, None)
    else
      let newEntrys :=
        if (0 <=? id)%Z
        then filter (λ v, id ≠ Entry.Id (deref v)) (entries c)
        else [] in
      (set_entries newEntrys c, None)
  else (c, Some (to_remove id)).

Definition RemoveFirst (c : t) : t * option Send :=
  if negb (running c) then
    if (length (entries c) <=? 0)%nat then (c, None)
    else (set_entries (drop 1 (entries c)) c, None)
  else (c, Some (to_remove (-2))).

Definition RemoveLast (c : t) : t * option Send :=
  if negb (running c) then
    if (length (entries c) <=? 0)%nat then (c, None)
    else (set_entries (take (length (entries c) - 1) (entries c)) c, None)
  else (c, Some (to_remove (-3))).

(** [logf]: the configured error log, or the package-level logger. *)
Definition logf (c : t) (format : string) (args : list Value) : Exec unit :=
  λ w,
    let to := match ErrorLog c with
              | Some l => ErrorLogger l
              | None => DefaultLogger
              end in
    (Ok tt, w ++ [Printf to format args]).

(** [const size = 64 << 10] *)
Definition size : Z := Z.shiftl 64 10.

(** [buf[:runtime.Stack(buf, false)]]: the text of the goroutine's stack,
    cut at [len(buf)] bytes. *)
Definition runtime_Stack (len_buf : Z) (trace : string) : string :=
  String.substring 0 (Z.to_nat len_buf) trace.

(** [runWithRecovery]; [trace] is the stack text the runtime has for the
    goroutine when the deferred function runs. *)
Definition runWithRecovery (c : t) (trace : string) (j : Job.t)
    (args : list Value) : Exec unit :=
  defer_recover
    (λ r,
       let buf := runtime_Stack size trace in
       logf c "cron: panic running job: %v\n%s" [r; VBytes buf])
    (Job.Run j args).

(** [c.now()], from the reading of [time.Now()] *)
Definition now (c : t) (clock : Time) : Time := In clock (location c).

(** *** [run], case by case *)

(** The activation times computed on entry to [run]. *)
Definition run_prologue (c : t) (now : Time) : t :=
  set_entries
    (store (λ e, Entry.set_Next (Schedule.Next (Entry.Schedule e) now) e)
       <$> entries c)
    c.

(** [sort.Sort(byTime(c.entries))] *)
Definition run_sort (c : t) : t :=
  set_entries (sort.Sort byTime.Less (entries c)) c.

(** The [switch e.ArgLen] of the timer case. *)
Definition dispatch (e : EntryPtr) : list Spawn :=
  let v := deref e in
  match Entry.ArgLen v with
  | 0 => [Go e (Entry.Job v) []]
  | 1 => [Go e (Entry.Job v) [VInt32 (Entry.Id v)]]
  | 2 => [Go e (Entry.Job v) [VInt32 (Entry.Id v); VString (Entry.Tag v)]]
  | 3 => [Go e (Entry.Job v)
            [VInt32 (Entry.Id v); VString (Entry.Tag v); VString (Entry.Task v)]]
  | 4 => [Go e (Entry.Job v)
            [VInt32 (Entry.Id v); VString (Entry.Tag v); VString (Entry.Task v);
             VString (Entry.Params v)]]
  | _ => []
  end%Z.

(** [e.Prev = e.Next; e.Next = e.Schedule.Next(now)] *)
Definition fire (now : Time) (e : EntryPtr) : EntryPtr :=
  store (λ v, Entry.set_Next (Schedule.Next (Entry.Schedule v) now)
                (Entry.set_Prev (Entry.Next v) v))
        e.

(** The [for _, e := range c.entries] of the timer case, with its
    [break]: the entries as the loop leaves them and the goroutines it
    started, in order. *)
Fixpoint run_due (now : Time) (es : list EntryPtr) : list EntryPtr * list Spawn :=
  match es with
  | [] => ([], [])
  | e :: rest =>
      if After (Entry.Next (deref e)) now || IsZero (Entry.Next (deref e))
      then (es, [])
      else
        let '(rest', spawned) := run_due now rest in
        (fire now e :: rest', dispatch e ++ spawned)
  end.

(** What one case of the [select] does. *)
Record Handled := mkHandled {
    after : t;
    spawned : list Spawn;
    reply : option (list EntryPtr);
    ctl : Ctl
}.

(** The [select] of [run]; [a] is the first free address, used by the
    snapshot case. *)
Definition run_select (c : t) (a : nat) (m : Recv) : Handled :=
  match m with
  | from_timer tick =>
      let now := In tick (location c) in
      let '(es, spawned) := run_due now (entries c) in
      mkHandled (set_entries es c) spawned None Break
  | from_add newEntry clock =>
      let now := now c clock in
      let newEntry :=
        store (λ e, Entry.set_Next (Schedule.Next (Entry.Schedule e) now) e)
              newEntry in
      let '(oid, c1) := nextId c in
      let newEntry := store (Entry.set_Id oid) newEntry in
      mkHandled (set_entries (entries c1 ++ [newEntry]) c1) [] None Break
  | from_snapshot =>
      mkHandled c [] (Some (entrySnapshot c a)) Continue
  | from_remove targetId =>
      if (length (entries c) <=? 0)%nat then mkHandled c [] None Continue
      else if (0 <=? targetId)%Z then
        let newEntrys :=
          filter (λ v, targetId ≠ Entry.Id (deref v)) (entries c) in
        mkHandled (set_entries newEntrys c) [] None Break
      else if (-1 =? targetId)%Z then
        mkHandled (set_entries [] c) [] None Break
      else if (-2 =? targetId)%Z then
        mkHandled (set_entries (drop 1 (entries c)) c) [] None Break
      else if (-3 =? targetId)%Z then
        mkHandled
          (set_entries (take (length (entries c) - 1) (entries c)) c)
          [] None Break
      else mkHandled c [] None Break
  | from_stop => mkHandled c [] None Return
  end.

(** [run] from its first statement to the first [select]. *)
Definition run_enter (c : t) (clock : Time) : t :=
  run_sort (run_prologue c (now c clock)).

(** One receive of the [select] and what follows it up to the next
    [select]: after [break] the outer loop sorts again. *)
Definition run_pass (c : t) (a : nat) (m : Recv) : Handled :=
  let h := run_select c a m in
  match ctl h with
  | Break => mkHandled (run_sort (after h)) (spawned h) (reply h) Break
  | _ => h
  end.

(** [Location] *)
Definition Location (c : t) : GoTime.Location := location c.

(** [AddJob].  [Parse] is the schedule parser of the package, whose file
    is not part of the sources at hand: it is a parameter, answering a
    schedule or an error.  [extArgs] is handed to [Schedule] as one
    argument, the slice itself.  The result is the engine, the message
    sent if any, and the error returned; [None] is a panic. *)
Definition AddJob (Parse : string → Schedule.t + Value) (c : t) (a : nat)
    (spec : string) (cmd : Job.t) (extArgs : list Value)
  : option (t * option Send * option Value) :=
  match Parse spec with
  | inr err => Some (c, None, Some err)
  | inl schedule =>
      r ← Schedule c a schedule cmd [VSlice extArgs];
      Some (r.1, r.2, None)
  end.

Definition AddFunc (Parse : string → Schedule.t + Value) (c : t) (a : nat)
    (spec : string) (cmd : list Value → Exec unit) :=
  AddJob Parse c a spec (FuncJob cmd) [].

Definition AddFunc3 (Parse : string → Schedule.t + Value) (c : t) (a : nat)
    (spec : string) (cmd : list Value → Exec unit) (n : Z) :=
  AddJob Parse c a spec (FuncJob cmd) [VInt32 n].

Definition AddFunc4 (Parse : string → Schedule.t + Value) (c : t) (a : nat)
    (spec : string) (cmd : list Value → Exec unit) (n : Z) (tag : string) :=
  AddJob Parse c a spec (FuncJob cmd) [VInt32 n; VString tag].

Definition AddFunc5 (Parse : string → Schedule.t + Value) (c : t) (a : nat)
    (spec : string) (cmd : list Value → Exec unit) (n : Z) (tag task : string) :=
  AddJob Parse c a spec (FuncJob cmd) [VInt32 n; VString tag; VString task].

Definition AddFunc6 (Parse : string → Schedule.t + Value) (c : t) (a : nat)
    (spec : string) (cmd : list Value → Exec unit) (n : Z)
    (tag task params : string) :=
  AddJob Parse c a spec (FuncJob cmd)
    [VInt32 n; VString tag; VString task; VString params].

End Cron.

(** ** Callers and loop together

    The channels are unbuffered, so a send completes when the loop
    receives it at its [select], and the next message is received only
    after the loop has come back to the [select].  One event is one call
    of the API (with the loop's handling of the message it sends, if it
    sends one) or one firing of the timer. *)

(** The engine and the next address the allocator hands out. *)
Record Sys := mkSys {
    cron : Cron.t;
    brk : nat
}.

(** The events: the calls of the API, with the clock readings their
    handling takes, and the firing of the timer. *)
Inductive Call :=
| CallStart (clock : Time)
| CallStop
| CallSchedule (schedule : Schedule.t) (cmd : Job.t) (extArgs : list Value)
               (clock : Time)
| CallEntries
| CallRemove (id : Z)
| CallRemoveAll
| CallRemoveFirst
| CallRemoveLast
| Tick (t : Time).

(** What an event lets the outside see: [go c.run()]; a message going
    over a channel; [go c.runWithRecovery(...)]; an entry appended to the
    registry, with its identity assigned; what [Entries] returns; a panic
    of the caller's goroutine. *)
Inductive Obs :=
| Launched
| Sent (m : Send)
| Spawned (s : Spawn)
| Registered (e : EntryPtr)
| Replied (es : list EntryPtr)
| Panicked.

Definition recv_of (m : Send) (clock : Time) : Recv :=
  match m with
  | to_add e => from_add e clock
  | to_snapshot => from_snapshot
  | to_remove targetId => from_remove targetId
  | to_stop => from_stop
  end.

Definition obs_of (h : Cron.Handled) : list Obs :=
  (Spawned <$> Cron.spawned h)
  ++ match Cron.reply h with Some es => [Replied es] | None => [] end.

Definition allocated (h : Cron.Handled) : nat :=
  match Cron.reply h with Some es => length es | None => 0%nat end.

(** The loop takes [m] at its [select]. *)
Definition deliver (c : Cron.t) (a : nat) (m : Recv) : Sys * list Obs :=
  let h := Cron.run_pass c a m in
  (mkSys (Cron.after h) (a + allocated h), obs_of h).

(** The rest of a call that may have sent a message. *)
Definition complete (a : nat) (clock : Time) (r : Cron.t * option Send)
  : Sys * list Obs :=
  match r with
  | (c, None) => (mkSys c a, [])
  | (c, Some m) =>
      let '(s, obs) := deliver c a (recv_of m clock) in
      (s, Sent m :: obs)
  end.

(** The entry an [append] has just put at the end of the registry. *)
Definition registered (es : list EntryPtr) : list Obs :=
  match last es with
  | Some e => [Registered e]
  | None => []
  end.

(** One event.  A call made while the loop runs is followed through the
    loop's handling of its message; the readings of the clock that the
    handling takes come with the event.  [Tick t] is the timer channel
    delivering [t]; it may come at any moment while the loop runs (when
    the timer is due is not modelled, so every firing the program can see
    is covered).  [Run], the blocking form of [Start], is the same event
    as [Start]. *)
Definition step (s : Sys) (ev : Call) : Sys * list Obs :=
  let c := cron s in
  let a := brk s in
  match ev with
  | CallStart clock =>
      match Cron.Start c with
      | (c1, true) => (mkSys (Cron.run_enter c1 clock) a, [Launched])
      | (c1, false) => (mkSys c1 a, [])
      end
  | CallStop => complete a GoTime.zero (Cron.Stop c)
  | CallSchedule schedule cmd extArgs clock =>
      match Cron.Schedule c a schedule cmd extArgs with
      | None => (mkSys c (S a), [Panicked])
      | Some (c1, None) =>
          (mkSys c1 (S a), registered (Cron.entries c1))
      | Some (c1, Some m) =>
          let h := Cron.run_select c1 (S a) (recv_of m clock) in
          (mkSys (Cron.run_sort (Cron.after h)) (S a),
           Sent m :: registered (Cron.entries (Cron.after h)))
      end
  | CallEntries =>
      match Cron.Entries c a with
      | inl es => (mkSys c (a + length es), [Replied es])
      | inr m => complete a GoTime.zero (c, Some m)
      end
  | CallRemove id => complete a GoTime.zero (Cron.Remove c id)
  | CallRemoveAll => complete a GoTime.zero (Cron.RemoveAll c)
  | CallRemoveFirst => complete a GoTime.zero (Cron.RemoveFirst c)
  | CallRemoveLast => complete a GoTime.zero (Cron.RemoveLast c)
  | Tick t =>
      if Cron.running c then deliver c a (from_timer t) else (s, [])
  end.

(** A run of the system: the state reached and everything observed. *)
Fixpoint exec (s : Sys) (evs : list Call) : Sys * list Obs :=
  match evs with
  | [] => (s, [])
  | ev :: evs' =>
      let '(s1, o1) := step s ev in
      let '(s2, o2) := exec s1 evs' in
      (s2, o1 ++ o2)
  end.

(** The system around [NewWithLocation(location)]: nothing allocated
    yet. *)
Definition initial (location : Location) : Sys :=
  mkSys (Cron.NewWithLocation location) 0.

(** ** Observations of a run *)

(** The snapshots an observation trace carries. *)
Definition replies (obs : list Obs) : list (list EntryPtr) :=
  omap (λ o, match o with Replied es => Some es | _ => None end) obs.

(** The goroutines an observation trace starts for jobs. *)
Definition spawns (obs : list Obs) : list Spawn :=
  omap (λ o, match o with Spawned s => Some s | _ => None end) obs.

(** The entries an observation trace registers, in order. *)
Definition registrations (obs : list Obs) : list EntryPtr :=
  omap (λ o, match o with Registered e => Some e | _ => None end) obs.

(** What [Entries] returns in state [s]. *)
Definition Entries_result (s : Sys) : list (list EntryPtr) :=
  replies (step s CallEntries).2.

(** The identities and the task fields of a list of entries. *)
Definition ids (es : list EntryPtr) : list Z :=
  (λ e, Entry.Id (deref e)) <$> es.

Definition tasks (es : list EntryPtr) : list (string * string) :=
  (λ e, (Entry.Task (deref e), Entry.Params (deref e))) <$> es.

(** ** The order of the registry *)

(** No inversion: nothing later in the list is [less] than something
    earlier. *)
Definition ordered {A} (less : A → A → bool) (l : list A) : Prop :=
  StronglySorted (λ a b, less b a = false) l.

(** The entry's [Next] is the zero time. *)
Definition sentinel (e : EntryPtr) : bool := IsZero (Entry.Next (deref e)).

(** Every entry with the zero time comes after every entry with a real
    time. *)
Definition sentinels_last (es : list EntryPtr) : Prop :=
  ∀ i j a b, es !! i = Some a → es !! j = Some b →
             sentinel a = true → sentinel b = false → (j < i)%nat.

(** While the loop runs, the registry is as the last sort left it. *)
Definition sorted_while_running (s : Sys) : Prop :=
  Cron.running (cron s) = true → ordered byTime.Less (Cron.entries (cron s)).

(** ** The timer case *)

(** An entry is due at [now]: its [Next] is a real time at or before
    [now]. *)
Definition due (now : Time) (e : EntryPtr) : Prop :=
  (instant (Entry.Next (deref e)) ≤ instant now)%Z ∧ sentinel e = false.

(** An entry is not due at [now]: its [Next] is strictly after [now] or
    is the zero time. *)
Definition not_due (now : Time) (e : EntryPtr) : Prop :=
  (instant now < instant (Entry.Next (deref e)))%Z ∨ sentinel e = true.

(** The four auxiliary values of a dispatch, in their fixed order. *)
Definition aux_values (e : EntryPtr) : list Value :=
  [VInt32 (Entry.Id (deref e)); VString (Entry.Tag (deref e));
   VString (Entry.Task (deref e)); VString (Entry.Params (deref e))].

(** Two records that agree on every field but [Next] and [Prev]. *)
Definition same_but_times (v w : Entry.t) : Prop :=
  Entry.Schedule v = Entry.Schedule w ∧ Entry.Job v = Entry.Job w ∧
  Entry.Id v = Entry.Id w ∧ Entry.ArgLen v = Entry.ArgLen w ∧
  Entry.Tag v = Entry.Tag w ∧ Entry.Task v = Entry.Task w ∧
  Entry.Params v = Entry.Params w.

(** ** Entries over a run *)

(** A schedule whose [Next] answers the zero time for every input. *)
Definition never_fires (sch : Schedule.t) : Prop :=
  ∀ t, IsZero (Schedule.Next sch t) = true.

(** An entry with such a schedule holds the zero time in [Next]. *)
Definition idle_if_never (e : EntryPtr) : Prop :=
  never_fires (Entry.Schedule (deref e)) → sentinel e = true.

(** [e'] is the record [e] at a later point: same address, same fields
    but for the two times. *)
Definition carried (e e' : EntryPtr) : Prop :=
  addr e' = addr e ∧ same_but_times (deref e') (deref e).

(** Every entry of [es] is still held in [es']. *)
Definition persists (es es' : list EntryPtr) : Prop :=
  ∀ e, e ∈ es → ∃ e', e' ∈ es' ∧ carried e e'.

(** [e'] is [e] after the loop may have written its times: [Next] is
    what it was or an answer of the entry's schedule. *)
Definition retimed (e e' : EntryPtr) : Prop :=
  carried e e' ∧
  (Entry.Next (deref e') = Entry.Next (deref e) ∨
   ∃ t, Entry.Next (deref e')
        = Schedule.Next (Entry.Schedule (deref e)) t).

(** The calls that remove entries. *)
Definition is_removal (ev : Call) : bool :=
  match ev with
  | CallRemove _ | CallRemoveAll | CallRemoveFirst | CallRemoveLast => true
  | _ => false
  end.

(** The three things an event can do to the registry: rewrite times
    (and start jobs for entries with a real [Next]), remove entries, or
    append one entry under the next identity. *)
Inductive step_kind (s : Sys) (ev : Call) (s' : Sys) (obs : list Obs) : Prop :=
| kind_times (es1 : list EntryPtr) :
    is_removal ev = false →
    Forall2 retimed (Cron.entries (cron s)) es1 →
    Cron.entries (cron s') ≡ₚ es1 →
    Cron.id (cron s') = Cron.id (cron s) →
    (brk s ≤ brk s')%nat →
    registrations obs = [] →
    (∀ sp, sp ∈ spawns obs →
           by_entry sp ∈ Cron.entries (cron s) ∧ sentinel (by_entry sp) = false) →
    step_kind s ev s' obs
| kind_removal :
    is_removal ev = true →
    Cron.entries (cron s') ⊆+ Cron.entries (cron s) →
    Cron.id (cron s') = Cron.id (cron s) →
    brk s' = brk s →
    registrations obs = [] →
    spawns obs = [] →
    step_kind s ev s' obs
| kind_registration (e : EntryPtr) :
    is_removal ev = false →
    Cron.entries (cron s') ≡ₚ Cron.entries (cron s) ++ [e] →
    addr e = brk s →
    Entry.Id (deref e) = Cron.id (cron s) →
    (Entry.Next (deref e) = GoTime.zero ∨
     ∃ t, Entry.Next (deref e)
          = Schedule.Next (Entry.Schedule (deref e)) t) →
    Cron.id (cron s') = wrap32 (Cron.id (cron s) + 1) →
    brk s' = S (brk s) →
    registrations obs = [e] →
    spawns obs = [] →
    step_kind s ev s' obs.

(** Every address held by the registry has been handed out. *)
Definition allocated_below (s : Sys) : Prop :=
  Forall (λ e, (addr e < brk s)%nat) (Cron.entries (cron s)).

(** The identities are issued in strictly increasing order. *)
Definition increasing (l : list Z) : Prop :=
  ∀ i j x y, l !! i = Some x → l !! j = Some y → (i < j)%nat → (x < y)%Z.

(** ** The two mutation paths *)

(** The calls that change the registry. *)
Definition is_mutation (ev : Call) : bool :=
  match ev with
  | CallSchedule _ _ _ _ | CallRemove _ | CallRemoveAll
  | CallRemoveFirst | CallRemoveLast => true
  | _ => false
  end.

(** Registrations, removals by an identity (or by -1, which clears on
    both paths), clearing, and firings of the timer: the events whose
    effect does not depend on the order of the registry. *)
Definition order_free (ev : Call) : bool :=
  match ev with
  | CallSchedule _ _ _ _ | CallRemoveAll | Tick _ => true
  | CallRemove id => (-1 <=? id)%Z
  | _ => false
  end.

(** A record without its two times, and a registry slot as address and
    such a record. *)
Definition timeless (v : Entry.t) : Entry.t :=
  Entry.set_Prev GoTime.zero (Entry.set_Next GoTime.zero v).

Definition content (e : EntryPtr) : nat * Entry.t :=
  (addr e, timeless (deref e)).

(** A listed record without its two times. *)
Definition listed (e : EntryPtr) : Entry.t := timeless (deref e).

(** Two engines, one running and one stopped, that hold the same
    entries but for order and times, with the same counter and the same
    allocator state. *)
Definition same_registry (sr ss : Sys) : Prop :=
  Cron.running (cron sr) = true ∧
  Cron.running (cron ss) = false ∧
  Cron.id (cron sr) = Cron.id (cron ss) ∧
  brk sr = brk ss ∧
  content <$> Cron.entries (cron sr) ≡ₚ content <$> Cron.entries (cron ss).

(** ** Sample data *)

(** a job that returns at once, and one that panics *)
Definition noop : Job.t := Job.mk (λ _, ret tt).
Definition faulty : Job.t := Job.mk (λ _ w, (Panicking (VString "boom"), w)).
Definition at_ (z : Z) : Time := GoTime.mk z "UTC".
(** a schedule that always answers the same instant *)
Definition always (z : Z) : Schedule.t := Schedule.mk (λ _, at_ z).
(** a schedule firing every [d] after the given time *)
Definition every (d : Z) : Schedule.t :=
  Schedule.mk (λ t, GoTime.mk (instant t + d) (zone t)).
(** a schedule that never fires *)
Definition never : Schedule.t := Schedule.mk (λ _, GoTime.zero).

(** Sample entries: a registered record with the given address,
    identity, arity and [Next]. *)
Definition sample (a : nat) (i n : Z) (next : Z) : EntryPtr :=
  Ptr a (Entry.mk (every 10) (at_ next) GoTime.zero noop i n "tag" "task" "params").

(** A stopped engine holding the given registry. *)
Definition holding (es : list EntryPtr) : Cron.t :=
  Cron.mk (Z.of_nat (length es)) es false None "UTC".

Definition registry_a : list EntryPtr :=
  [sample 0 0 2 5; sample 1 1 7 6; sample 2 2 0 9; sample 3 3 0 0].

(** One registration through the six-argument form, then a listing. *)
Definition register_and_list : list Call :=
  [CallSchedule (every 10) noop
     [VSlice [VInt32 4; VString "tag"; VString "task"; VString "params"]]
     (at_ 0);
   CallEntries].

(** [n] registrations in a row on one engine. *)
Definition register_times (n : nat) : list Call :=
  replicate n (CallSchedule never noop [VSlice []] GoTime.zero).

(** Registrations while stopped and while running, with a removal in
    between. *)
Definition mixed_registrations : list Call :=
  [CallSchedule (every 10) noop [VSlice []] (at_ 0);
   CallSchedule never noop [VSlice [VInt32 1]] (at_ 0);
   CallStart (at_ 1);
   CallRemove 0;
   CallSchedule (every 5) noop [VSlice [VInt32 2; VString "tag"]] (at_ 2);
   Tick (at_ 7);
   CallStop;
   CallSchedule (every 3) noop [VSlice []] (at_ 9)].

(** Register an entry firing late, then one firing early, then remove
    the first entry. *)
Definition late_early_remove_first : list Call :=
  [CallSchedule (always 10) noop [VSlice []] (at_ 1);
   CallSchedule (always 5) noop [VSlice []] (at_ 1);
   CallRemoveFirst].

(** Registrations, removals by identity, clearing and timer firings. *)
Definition order_free_calls : list Call :=
  [CallSchedule (always 10) noop [VSlice [VInt32 1]] (at_ 1);
   CallSchedule (always 5) noop [VSlice [VInt32 2; VString "tag"]] (at_ 1);
   Tick (at_ 6);
   CallSchedule (every 3) noop [VSlice []] (at_ 7);
   CallRemove 0;
   Tick (at_ 11);
   CallSchedule never noop [VSlice []] (at_ 12)].

(** An entry as identity, [Next] and [Prev]; a started goroutine as the
    identity of its entry and its arguments. *)
Definition times (e : EntryPtr) : Z * Z * Z :=
  (Entry.Id (deref e), instant (Entry.Next (deref e)),
   instant (Entry.Prev (deref e))).

Definition started (s : Spawn) : Z * list Value :=
  (Entry.Id (deref (by_entry s)), args s).

(** An entry of arity 2 every 10, one of arity 9 every 4; start at 100
    and let the timer fire at 104, 108 and 110. *)
Definition arity_nine_run : list Call :=
  [CallSchedule (every 10) noop [VSlice [VInt32 2; VString "tag"]] (at_ 0);
   CallSchedule (every 4) noop [VSlice [VInt32 9]] (at_ 0);
   CallStart (at_ 100);
   Tick (at_ 104); Tick (at_ 108); Tick (at_ 110)].

(** Two registrations, and [Remove(-2)] after them. *)
Definition two_registrations : list Call :=
  [CallSchedule (always 10) noop [VSlice []] (at_ 1);
   CallSchedule (always 5) noop [VSlice []] (at_ 1)].

Definition remove_minus_two : list Call :=
  two_registrations ++ [CallRemove (-2)].

(** ** Schedules as the interface asks for them *)

(** The contract written at [Schedule.Next]: the answer is later than
    the time given, or it is the zero time, for a schedule that has no
    activation left. *)
Definition advances (sch : Schedule.t) : Prop :=
  ∀ t, IsZero (Schedule.Next sch t) = true ∨
       (instant t < instant (Schedule.Next sch t))%Z.

(** ** More sample data *)

(** A parser that knows one spec. *)
Definition parse_sample (spec : string) : Schedule.t + Value :=
  if decide (spec = "@every 5") then inl (every 5)
  else inr (VString "unknown spec").

(** A running engine holding [registry_a]. *)
Definition running_a : Sys := mkSys (Cron.set_running true (holding registry_a)) 4.

(** * Properties *)

Section insertion_sort.
Context {A : Type} (less : A → A → bool).

Lemma sift_perm x rp : sort.sift less x rp ≡ₚ x :: rp.
Proof.
  induction rp as [|y rp IH]; simpl; [done|].
  destruct (less x y); [|done].
  rewrite IH. apply Permutation_swap.
Qed.

Lemma Sort_perm l : sort.Sort less l ≡ₚ l.
Proof.
  unfold sort.Sort, sort.insertionSort.
  rewrite reverse_Permutation.
  induction l as [|x l IH] using rev_ind; [done|].
  rewrite foldl_snoc, sift_perm, IH.
  by rewrite Permutation_cons_append.
Qed.

Lemma flip_sorted_reverse (R : relation A) l :
  StronglySorted R l → StronglySorted (flip R) (reverse l).
Proof.
  induction 1 as [|a l Hl IH Ha]; [constructor|].
  rewrite reverse_cons. apply StronglySorted_app_2.
  - intros x1 x2 Hx1 ->%list_elem_of_singleton.
    rewrite elem_of_reverse in Hx1. rewrite Forall_forall in Ha.
    unfold flip. by apply Ha.
  - exact IH.
  - constructor; [constructor|apply Forall_nil_2].
Qed.

Hypothesis less_asym : ∀ a b, less a b = true → less b a = false.
Hypothesis less_negtrans :
  ∀ a b c, less a b = false → less b c = false → less a c = false.

Lemma sift_sorted x rp :
  StronglySorted (λ a b, less a b = false) rp →
  StronglySorted (λ a b, less a b = false) (sort.sift less x rp).
Proof.
  induction 1 as [|y rp Hrp IH Hy]; simpl; [repeat constructor|].
  destruct (less x y) eqn:Hxy.
  - constructor; [done|].
    rewrite Forall_forall in Hy |- *. intros z Hz.
    rewrite sift_perm in Hz. apply elem_of_cons in Hz as [->|Hz]; auto.
  - constructor; [by constructor|].
    constructor; [done|].
    rewrite Forall_forall in Hy |- *. intros z Hz. eauto.
Qed.

Lemma Sort_ordered l : ordered less (sort.Sort less l).
Proof.
  unfold ordered, sort.Sort, sort.insertionSort.
  apply (flip_sorted_reverse (λ a b, less a b = false)).
  induction l as [|x l IH] using rev_ind; [constructor|].
  rewrite foldl_snoc. by apply sift_sorted.
Qed.

End insertion_sort.

Lemma ordered_lookup {A} (less : A → A → bool) l i j a b :
  ordered less l → l !! i = Some a → l !! j = Some b → (i < j)%nat →
  less b a = false.
Proof.
  intros Hl. revert i j. induction Hl as [|x l Hl IH Hx]; intros i j Hi Hj Hij.
  - by rewrite lookup_nil in Hi.
  - destruct j as [|j]; [lia|]. destruct i as [|i]; simpl in *.
    + injection Hi as ->. rewrite Forall_forall in Hx.
      apply Hx. by eapply list_elem_of_lookup_2.
    + apply (IH i j); [done|done|lia].
Qed.

(** *** [byTime.Less] is a strict weak order *)

Lemma Less_asym a b : byTime.Less a b = true → byTime.Less b a = false.
Proof.
  unfold byTime.Less, IsZero, Before.
  repeat case_match; try done; lia.
Qed.

Lemma Less_negtrans a b c :
  byTime.Less a b = false → byTime.Less b c = false → byTime.Less a c = false.
Proof.
  unfold byTime.Less, IsZero, Before.
  repeat case_match; try done; lia.
Qed.

Lemma Less_real_sentinel a b :
  sentinel a = false → sentinel b = true → byTime.Less a b = true.
Proof. unfold byTime.Less, sentinel. by intros -> ->. Qed.

Lemma ordered_sentinels_last es :
  ordered byTime.Less es → sentinels_last es.
Proof.
  intros Hes i j a b Hi Hj Ha Hb.
  destruct (decide (j < i)%nat) as [|Hn]; [done|exfalso].
  destruct (decide (i = j)) as [->|Hne].
  - rewrite Hi in Hj. injection Hj as ->. congruence.
  - assert (byTime.Less b a = false) as Hba
      by (eapply (ordered_lookup _ es i j); [done..|lia]).
    rewrite Less_real_sentinel in Hba; done.
Qed.

Lemma Sort_byTime_ordered es : ordered byTime.Less (sort.Sort byTime.Less es).
Proof. apply Sort_ordered; [apply Less_asym|apply Less_negtrans]. Qed.

(** ** The registry sort *)

(** C1. The comparator of the registry sort: an entry whose [Next] is
    the zero time is never less than any entry; an entry with a real
    [Next] is less than every entry with the zero time; between two real
    times the earlier one is less, and only it; two entries with the zero
    time are not less than each other.  Hence any arrangement without an
    inversion has the zero-time entries after all others, and
    [sort.Sort] produces such an arrangement of the same entries,
    whatever order they were inserted in. *)
Theorem byTime_Less_sentinels_last :
  (∀ a b, sentinel a = true → byTime.Less a b = false) ∧
  (∀ a b, sentinel a = false → sentinel b = true → byTime.Less a b = true) ∧
  (∀ a b, sentinel a = false → sentinel b = false →
          (byTime.Less a b = true ↔
           (instant (Entry.Next (deref a)) < instant (Entry.Next (deref b)))%Z)) ∧
  (∀ a b, sentinel a = true → sentinel b = true →
          byTime.Less a b = false ∧ byTime.Less b a = false) ∧
  (∀ es, ordered byTime.Less es → sentinels_last es) ∧
  (∀ es es', es' ≡ₚ es →
             sort.Sort byTime.Less es' ≡ₚ es ∧
             ordered byTime.Less (sort.Sort byTime.Less es') ∧
             sentinels_last (sort.Sort byTime.Less es')).
Proof.
  split_and!.
  - unfold byTime.Less, sentinel. by intros a b ->.
  - apply Less_real_sentinel.
  - unfold byTime.Less, sentinel, Before. intros a b -> ->. apply Z.ltb_lt.
  - unfold byTime.Less, sentinel. by intros a b -> ->.
  - apply ordered_sentinels_last.
  - intros es es' Hp. split_and!.
    + by rewrite Sort_perm.
    + apply Sort_byTime_ordered.
    + apply ordered_sentinels_last, Sort_byTime_ordered.
Qed.

Lemma byTime_Less_sentinels_last_witness :
  sentinels_last
    (sort.Sort byTime.Less [sample 0 0 0 0; sample 1 1 0 7; sample 2 2 0 0;
                            sample 3 3 0 (-4)]).
Proof.
  destruct byTime_Less_sentinels_last as (_ & _ & _ & _ & _ & H).
  exact (proj2 (proj2 (H _ _ (reflexivity _)))).
Defined.

(** ** The timer case *)

Lemma break_iff now e :
  After (Entry.Next (deref e)) now || IsZero (Entry.Next (deref e)) = true
  ↔ not_due now e.
Proof.
  unfold not_due, sentinel, After, IsZero.
  rewrite orb_true_iff, Z.ltb_lt. done.
Qed.

Lemma no_break_iff now e :
  After (Entry.Next (deref e)) now || IsZero (Entry.Next (deref e)) = false
  ↔ due now e.
Proof.
  unfold due, sentinel, After, IsZero.
  rewrite orb_false_iff, Z.ltb_ge. done.
Qed.

Lemma due_not_due now e : due now e → not_due now e → False.
Proof. unfold due, not_due. intros [? ?] [?|?]; [lia|congruence]. Qed.

(** The range loop fires a prefix of the slice and stops at the first
    entry that is not due. *)
Lemma run_due_spec now es :
  ∃ k, Forall (due now) (take k es) ∧
       (∀ e, head (drop k es) = Some e → not_due now e) ∧
       Cron.run_due now es
       = ((Cron.fire now <$> take k es) ++ drop k es,
          take k es ≫= Cron.dispatch).
Proof.
  induction es as [|e es (k & Hk & Hd & IH)].
  - exists 0%nat. by split_and!.
  - simpl.
    destruct (After _ _ || IsZero _) eqn:Hb.
    + exists 0%nat. split_and!; [constructor| |done].
      simpl. intros ? [= <-]. by apply break_iff.
    + exists (S k). rewrite IH. simpl. split_and!; [|done|done].
      constructor; [by apply no_break_iff|done].
Qed.

(** In a sorted slice nothing after an entry that is not due is due. *)
Lemma ordered_not_due now es k e :
  ordered byTime.Less es → head (drop k es) = Some e → not_due now e →
  Forall (not_due now) (drop k es).
Proof.
  intros Hes Hhd He. apply Forall_forall. intros e' He'.
  rewrite <- (take_drop k es) in Hes.
  apply StronglySorted_app in Hes as (_ & _ & Hd).
  destruct (drop k es) as [|x l]; [done|]. injection Hhd as ->.
  apply elem_of_cons in He' as [->|He']; [done|].
  apply StronglySorted_inv in Hd as [_ Hx]. rewrite Forall_forall in Hx.
  specialize (Hx _ He'). revert Hx He.
  unfold not_due, byTime.Less, sentinel, IsZero, Before.
  repeat case_match; try done; intros; try lia; auto.
Qed.

Lemma fire_fields now e :
  addr (Cron.fire now e) = addr e ∧
  Entry.Prev (deref (Cron.fire now e)) = Entry.Next (deref e) ∧
  Entry.Next (deref (Cron.fire now e))
  = Schedule.Next (Entry.Schedule (deref e)) now ∧
  same_but_times (deref (Cron.fire now e)) (deref e).
Proof. by repeat split. Qed.

Lemma dispatch_in_range e :
  (0 ≤ Entry.ArgLen (deref e) ≤ 4)%Z →
  Cron.dispatch e
  = [Go e (Entry.Job (deref e))
        (take (Z.to_nat (Entry.ArgLen (deref e))) (aux_values e))].
Proof.
  intros Hn. unfold Cron.dispatch, aux_values.
  assert (Entry.ArgLen (deref e) ∈ [0; 1; 2; 3; 4]%Z) as Hin
    by (rewrite !elem_of_cons; lia).
  rewrite !elem_of_cons, elem_of_nil in Hin.
  destruct Hin as [->|[->|[->|[->|[->|[]]]]]]; reflexivity.
Qed.

Lemma dispatch_out_of_range e :
  ¬ (0 ≤ Entry.ArgLen (deref e) ≤ 4)%Z → Cron.dispatch e = [].
Proof.
  intros Hn. unfold Cron.dispatch.
  destruct (Entry.ArgLen (deref e)) as [|p|p]; [lia| |done].
  destruct p as [[[?|?|]|[?|?|]|]|[[?|?|]|[?|?|]|]|]; try done; lia.
Qed.

(** The timer case as a whole, on a sorted registry. *)
Lemma timer_pass (c : Cron.t) (a : nat) (tick : Time) :
  ordered byTime.Less (Cron.entries c) →
  let now := In tick (Cron.location c) in
  let h := Cron.run_select c a (from_timer tick) in
  ∃ k : nat,
    Forall (due now) (take k (Cron.entries c)) ∧
    Forall (not_due now) (drop k (Cron.entries c)) ∧
    Cron.after h
    = Cron.set_entries
        ((Cron.fire now <$> take k (Cron.entries c)) ++ drop k (Cron.entries c))
        c ∧
    Cron.spawned h = take k (Cron.entries c) ≫= Cron.dispatch.
Proof.
  intros Hord now h.
  destruct (run_due_spec now (Cron.entries c)) as (k & Hk & Hd & Heq).
  exists k. subst h. unfold Cron.run_select. fold now. rewrite Heq. simpl.
  split_and!.
  - exact Hk.
  - destruct (head (drop k (Cron.entries c))) as [e|] eqn:Hhd.
    + eapply ordered_not_due; eauto.
    + apply head_None in Hhd. rewrite Hhd. constructor.
  - reflexivity.
  - reflexivity.
Qed.

Lemma registry_a_ordered : ordered byTime.Less registry_a.
Proof.
  unfold ordered, registry_a. repeat constructor.
Qed.

Lemma dispatch_by_entry e s : s ∈ Cron.dispatch e → by_entry s = e.
Proof.
  unfold Cron.dispatch.
  repeat case_match; rewrite ?elem_of_cons, ?elem_of_nil;
    intros; destruct_or?; subst; done.
Qed.

(** C10. An entry whose [ArgLen] is outside 0..4 and that is due when
    the timer fires matches no case of the dispatch switch: no goroutine
    is started for it, yet its [Prev] takes its old [Next] and its [Next]
    is recomputed from the schedule; its [ArgLen] stays as it is, so the
    same happens at every later firing. *)
Theorem out_of_range_arity_advances_without_job
    (c : Cron.t) (a : nat) (tick : Time) (i : nat) (e : EntryPtr) :
  ordered byTime.Less (Cron.entries c) →
  Cron.entries c !! i = Some e →
  due (In tick (Cron.location c)) e →
  ¬ (0 ≤ Entry.ArgLen (deref e) ≤ 4)%Z →
  let now := In tick (Cron.location c) in
  let h := Cron.run_select c a (from_timer tick) in
  Cron.dispatch e = [] ∧
  (∀ s, s ∈ Cron.spawned h → by_entry s ≠ e) ∧
  Cron.entries (Cron.after h) !! i = Some (Cron.fire now e) ∧
  Entry.Prev (deref (Cron.fire now e)) = Entry.Next (deref e) ∧
  Entry.Next (deref (Cron.fire now e))
  = Schedule.Next (Entry.Schedule (deref e)) now ∧
  Entry.ArgLen (deref (Cron.fire now e)) = Entry.ArgLen (deref e).
Proof.
  intros Hord Hi Hdue Hn now h.
  destruct (timer_pass c a tick Hord) as (k & Hk & Hd & Hafter & Hsp).
  fold now in Hk, Hd, Hafter, Hsp. fold h in Hafter, Hsp.
  assert (i < k)%nat as Hik.
  { destruct (decide (i < k)%nat) as [|Hge]; [done|exfalso].
    rewrite Forall_forall in Hd. apply (due_not_due now e Hdue), Hd.
    apply list_elem_of_lookup. exists (i - k)%nat.
    rewrite lookup_drop, <- Hi. f_equal. lia. }
  pose proof (dispatch_out_of_range e Hn) as Hnone.
  split_and!; try done.
  - intros s Hs <-. rewrite Hsp in Hs.
    apply list_elem_of_bind in Hs as (e1 & Hs & _).
    pose proof (dispatch_by_entry _ _ Hs) as Heq. subst e1.
    rewrite Hnone in Hs. by apply elem_of_nil in Hs.
  - rewrite Hafter. simpl.
    rewrite lookup_app_l by (rewrite length_fmap, length_take;
                             apply lookup_lt_Some in Hi; lia).
    by rewrite list_lookup_fmap, lookup_take_lt, Hi.
Qed.

Lemma out_of_range_arity_advances_without_job_witness :
  Cron.entries
    (Cron.after (Cron.run_select (holding registry_a) 4 (from_timer (at_ 6))))
  !! 1%nat
  = Some (Cron.fire (at_ 6) (sample 1 1 7 6)).
Proof.
  refine (proj1 (proj2 (proj2
            (out_of_range_arity_advances_without_job
               (holding registry_a) 4 (at_ 6) 1 (sample 1 1 7 6)
               registry_a_ordered eq_refl _ _)))).
  - split; [simpl; lia|reflexivity].
  - simpl. lia.
Defined.

(** ** Removal by identity *)

Lemma filter_absent (id : Z) (es : list EntryPtr) :
  (∀ e, e ∈ es → Entry.Id (deref e) ≠ id) →
  filter (λ v, id ≠ Entry.Id (deref v)) es = es.
Proof.
  intros H. induction es as [|e es IH]; [done|].
  rewrite filter_cons_True by (intros ->; eapply H; [left|done]).
  f_equal. apply IH. intros e' He'. apply H. by right.
Qed.

(** [Remove(-1)] on a stopped engine with two entries, of identities 0
    and 1, empties the registry. *)
Lemma remove_negative_id_counterexample :
  ¬ (∀ (c : Cron.t) (id : Z),
       (∀ e, e ∈ Cron.entries c → Entry.Id (deref e) ≠ id) →
       Cron.entries (Cron.Remove c id).1 = Cron.entries c).
Proof.
  intros H.
  specialize (H (cron (exec (initial "UTC") two_registrations).1) (-1)%Z).
  assert (ids (Cron.entries (cron (exec (initial "UTC") two_registrations).1))
          = [0; 1]%Z) as Hids by reflexivity.
  assert (Cron.entries
            (Cron.Remove (cron (exec (initial "UTC") two_registrations).1)
               (-1)).1 = []) as Hnil by reflexivity.
  rewrite Hnil in H.
  destruct (Cron.entries (cron (exec (initial "UTC") two_registrations).1))
    as [|e0 [|e1 [|e2 es]]]; try discriminate Hids.
  injection Hids as Hid0 Hid1.
  discriminate H. intros e He.
  rewrite !elem_of_cons, elem_of_nil in He.
  destruct He as [->|[->|[]]]; lia.
Qed.

(** C3, amended. For every identity [id >= 0]: on a stopped engine
    [Remove(id)] leaves in the registry exactly the entries whose
    identity differs from [id], unchanged and in their order, and sends
    nothing; on a running engine it sends [id] on the [remove] channel
    and the loop's case leaves exactly those entries as well (the sort
    that follows keeps them).  When no entry has identity [id], and so
    when the registry is empty, the registry is left as it was. *)
Theorem remove_nonnegative_identity (c : Cron.t) (a : nat) (id : Z) :
  (0 ≤ id)%Z →
  let kept := filter (λ v, id ≠ Entry.Id (deref v)) (Cron.entries c) in
  (Cron.running c = false →
   Cron.Remove c id = (Cron.set_entries kept c, None)) ∧
  (Cron.running c = true →
   Cron.Remove c id = (c, Some (to_remove id)) ∧
   Cron.after (Cron.run_select c a (from_remove id)) = Cron.set_entries kept c ∧
   Cron.spawned (Cron.run_select c a (from_remove id)) = [] ∧
   Cron.after (Cron.run_pass c a (from_remove id))
   = Cron.set_entries
       (Cron.entries (Cron.after (Cron.run_pass c a (from_remove id)))) c ∧
   Cron.entries (Cron.after (Cron.run_pass c a (from_remove id))) ≡ₚ kept) ∧
  (∀ e, e ∈ kept ↔ e ∈ Cron.entries c ∧ Entry.Id (deref e) ≠ id) ∧
  ((∀ e, e ∈ Cron.entries c → Entry.Id (deref e) ≠ id) →
   kept = Cron.entries c).
Proof.
  intros Hid kept. subst kept.
  destruct c as [i es r l loc]. cbn [Cron.running Cron.entries].
  split_and!.
  - intros ->. unfold Cron.Remove. cbn [Cron.running negb Cron.entries].
    destruct es as [|e es]; [reflexivity|].
    cbn [length Nat.leb]. by rewrite (proj2 (Z.leb_le 0 id) Hid).
  - intros ->. unfold Cron.run_pass, Cron.run_select.
    destruct es as [|e es]; [split_and!; reflexivity|].
    cbn [Cron.entries length Nat.leb].
    rewrite (proj2 (Z.leb_le 0 id) Hid).
    cbn [Cron.after Cron.spawned Cron.ctl].
    split_and!; [reflexivity..|].
    unfold Cron.run_sort. cbn [Cron.set_entries Cron.entries].
    apply Sort_perm.
  - intros e. rewrite list_elem_of_filter. split; intros [? ?]; split; auto.
  - apply filter_absent.
Qed.

Lemma remove_nonnegative_identity_witness :
  Cron.Remove (holding registry_a) 1
  = (Cron.set_entries [sample 0 0 2 5; sample 2 2 0 9; sample 3 3 0 0]
       (holding registry_a), None).
Proof.
  refine (proj1 (remove_nonnegative_identity (holding registry_a) 4 1 _) _).
  - lia.
  - reflexivity.
Defined.

(** ** Snapshots *)

Lemma entrySnapshot_lookup c a i e :
  Cron.entries c !! i = Some e →
  Cron.entrySnapshot c a !! i
  = Some (Ptr (a + i)
            (Entry.mk (Entry.Schedule (deref e)) (Entry.Next (deref e))
               (Entry.Prev (deref e)) (Entry.Job (deref e))
               (Entry.Id (deref e)) (Entry.ArgLen (deref e))
               (Entry.Tag (deref e)) "" "")).
Proof.
  intros Hi. unfold Cron.entrySnapshot. by rewrite list_lookup_imap, Hi.
Qed.

(** ** The recovery wrapper *)

Lemma substring_length_le (m : nat) (s : string) :
  (String.length (String.substring 0 m s) ≤ m)%nat.
Proof.
  revert s. induction m as [|m IH]; intros [|ch s]; simpl; try lia.
  specialize (IH s). lia.
Qed.

(** C6. Whatever the job does, [runWithRecovery] returns normally, so
    the goroutine the loop started for it ends and the program, the loop
    and the other goroutines go on.  When the job panics with [r], the
    wrapper writes one report to the configured log sink, or to the
    default logger when none is configured: the format of the source
    with [r] and the captured stack text, which is at most 64 KiB long;
    the panic goes no further.  When the job returns, nothing is
    written. *)
Theorem runWithRecovery_contains_panic
    (c : Cron.t) (trace : string) (j : Job.t) (args : list Value) (w : World) :
  let report r to :=
    Printf to "cron: panic running job: %v\n%s"
      [r; VBytes (Cron.runtime_Stack Cron.size trace)] in
  (∀ r w' l,
     Job.Run j args w = (Panicking r, w') → Cron.ErrorLog c = Some l →
     Cron.runWithRecovery c trace j args w
     = (Ok tt, w' ++ [report r (ErrorLogger l)])) ∧
  (∀ r w',
     Job.Run j args w = (Panicking r, w') → Cron.ErrorLog c = None →
     Cron.runWithRecovery c trace j args w
     = (Ok tt, w' ++ [report r DefaultLogger])) ∧
  (∀ w',
     Job.Run j args w = (Ok tt, w') →
     Cron.runWithRecovery c trace j args w = (Ok tt, w')) ∧
  (∃ w', Cron.runWithRecovery c trace j args w = (Ok tt, w')) ∧
  (∃ w', go (Cron.runWithRecovery c trace j args) w = (Ends, w')) ∧
  (Z.of_nat (String.length (Cron.runtime_Stack Cron.size trace)) ≤ 65536)%Z.
Proof.
  intros report. unfold Cron.runWithRecovery, defer_recover, Cron.logf.
  split_and!.
  - by intros r w' l -> ->.
  - by intros r w' -> ->.
  - by intros w' ->.
  - destruct (Job.Run j args w) as [[[]|r] w']; eauto.
  - unfold go, Cron.runWithRecovery, defer_recover, Cron.logf.
    destruct (Job.Run j args w) as [[[]|r] w']; eauto.
  - pose proof (substring_length_le (Z.to_nat Cron.size) trace) as H.
    unfold Cron.runtime_Stack. change Cron.size with 65536%Z in *. lia.
Qed.

Lemma runWithRecovery_contains_panic_witness :
  Cron.runWithRecovery (holding []) "goroutine 7 [running]:" faulty [] []
  = (Ok tt,
     [Printf DefaultLogger "cron: panic running job: %v\n%s"
        [VString "boom"; VBytes "goroutine 7 [running]:"]]).
Proof.
  exact (proj1 (proj2 (runWithRecovery_contains_panic
                         (holding []) "goroutine 7 [running]:" faulty [] []))
               (VString "boom") [] eq_refl eq_refl).
Defined.

(** ** Start and stop *)

(** C8. [Start] on a running engine returns at once: [go c.run()] is
    not executed, and flag, registry and counter stay as they are.
    [Stop] on a stopped engine returns at once: nothing is sent on the
    [stop] channel and the engine stays as it is. *)
Theorem start_running_stop_stopped_noop (s : Sys) :
  (Cron.running (cron s) = true →
   Cron.Start (cron s) = (cron s, false) ∧
   ∀ clock, step s (CallStart clock) = (s, [])) ∧
  (Cron.running (cron s) = false →
   Cron.Stop (cron s) = (cron s, None) ∧
   step s CallStop = (s, [])).
Proof.
  destruct s as [c a]. simpl. split; intros Hr.
  - unfold step, Cron.Start. simpl. by rewrite Hr.
  - unfold step, Cron.Stop. simpl. by rewrite Hr.
Qed.

Lemma start_running_stop_stopped_noop_witness :
  step (initial "UTC") CallStop = (initial "UTC", []) ∧
  step (step (initial "UTC") (CallStart (at_ 0))).1 (CallStart (at_ 1))
  = ((step (initial "UTC") (CallStart (at_ 0))).1, []).
Proof.
  split.
  - exact (proj2 (proj2 (start_running_stop_stopped_noop (initial "UTC")) eq_refl)).
  - exact (proj2 (proj1 (start_running_stop_stopped_noop
                           (step (initial "UTC") (CallStart (at_ 0))).1) eq_refl)
                 (at_ 1)).
Defined.

(** ** Runs of the engine *)

(** Unfold the delivery of a message down to the [select] case. *)
Ltac loop_simpl :=
  unfold complete, deliver, Cron.run_pass, Cron.run_select, obs_of, allocated,
    recv_of; simpl.

Lemma in_take {A} (x : A) n l : x ∈ take n l → x ∈ l.
Proof. intros H. rewrite <- (take_drop n l). apply elem_of_app. by left. Qed.

(** *** What the pieces of [run] keep *)

Lemma run_due_spawned now es sp :
  sp ∈ (Cron.run_due now es).2 → due now (by_entry sp) ∧ by_entry sp ∈ es.
Proof.
  destruct (run_due_spec now es) as (k & Hk & _ & ->). simpl.
  intros (e & Hsp & He)%list_elem_of_bind.
  apply dispatch_by_entry in Hsp as ->.
  rewrite Forall_forall in Hk. split; [by apply Hk|].
  by eapply in_take.
Qed.

Lemma retimed_refl e : retimed e e.
Proof. by repeat split; left. Qed.

Lemma Forall2_retimed_refl es : Forall2 retimed es es.
Proof. induction es; constructor; auto using retimed_refl. Qed.

Lemma run_due_retimed now es : Forall2 retimed es (Cron.run_due now es).1.
Proof.
  induction es as [|e es IH]; simpl; [constructor|].
  destruct (After _ _ || IsZero _); [apply Forall2_retimed_refl|].
  destruct (Cron.run_due now es) as [rest' spawned]. simpl in *.
  constructor; [|done]. repeat split. right. by exists now.
Qed.

Lemma prologue_retimed now es :
  Forall2 retimed es
    (store (λ e, Entry.set_Next (Schedule.Next (Entry.Schedule e) now) e) <$> es).
Proof.
  induction es as [|e es IH]; simpl; constructor; [|done].
  repeat split. right. by exists now.
Qed.

Lemma spawns_Spawned l : spawns (Spawned <$> l) = l.
Proof. unfold spawns. induction l as [|x l IH]; [done|]. csimpl. by f_equal. Qed.

Lemma registrations_Spawned l : registrations (Spawned <$> l) = [].
Proof. unfold registrations. induction l as [|x l IH]; [done|]. by csimpl. Qed.

Lemma Schedule_extArgs_fields entry extArgs entry' :
  Cron.Schedule_extArgs entry extArgs = Some entry' →
  Entry.Schedule entry' = Entry.Schedule entry ∧
  Entry.Next entry' = Entry.Next entry ∧
  Entry.Prev entry' = Entry.Prev entry ∧
  Entry.Job entry' = Entry.Job entry ∧
  Entry.Id entry' = Entry.Id entry.
Proof.
  unfold Cron.Schedule_extArgs. intros H.
  destruct (extArgs !! 0%nat ≫= assert_slice) as [inner|]; [|done].
  simpl in H. repeat (case_match; simplify_option_eq); done.
Qed.

(** The remove case, with the sort that follows, only drops entries. *)
Lemma remove_case c a targetId :
  let h := Cron.run_pass c a (from_remove targetId) in
  Cron.entries (Cron.after h) ⊆+ Cron.entries c ∧
  Cron.id (Cron.after h) = Cron.id c ∧
  Cron.spawned h = [] ∧ Cron.reply h = None.
Proof.
  unfold Cron.run_pass, Cron.run_select.
  repeat case_match; simpl; split_and!; try done.
  all: rewrite Sort_perm; apply sublist_submseteq.
  - apply sublist_filter.
  - apply sublist_nil_l.
  - apply sublist_drop.
  - apply sublist_take.
  - done.
Qed.

Lemma registered_snoc es e : registered (es ++ [e]) = [Registered e].
Proof. unfold registered. by rewrite last_snoc. Qed.

(** Every event is of one of the three kinds. *)
Lemma step_has_kind s ev : step_kind s ev (step s ev).1 (step s ev).2.
Proof.
  destruct s as [c a].
  assert (∀ r obs a',
            (a ≤ a')%nat → registrations obs = [] → spawns obs = [] →
            is_removal ev = false →
            step_kind (mkSys c a) ev (mkSys (Cron.set_running r c) a') obs)
    as Hsame.
  { intros r obs a' Ha Hreg Hsp Hev.
    apply (kind_times _ _ _ _ (Cron.entries c)); simpl; try done.
    - apply Forall2_retimed_refl.
    - intros sp. rewrite Hsp. by intros ?%elem_of_nil. }
  assert (∀ obs a',
            (a ≤ a')%nat → registrations obs = [] → spawns obs = [] →
            is_removal ev = false →
            step_kind (mkSys c a) ev (mkSys c a') obs)
    as Hsame'.
  { intros obs a' Ha Hreg Hsp Hev.
    apply (kind_times _ _ _ _ (Cron.entries c)); simpl; try done.
    - apply Forall2_retimed_refl.
    - intros sp. rewrite Hsp. by intros ?%elem_of_nil. }
  assert (∀ targetId,
            is_removal ev = true →
            step_kind (mkSys c a) ev
              (complete a GoTime.zero (c, Some (to_remove targetId))).1
              (complete a GoTime.zero (c, Some (to_remove targetId))).2)
    as Hloop.
  { intros targetId Hev.
    destruct (remove_case c a targetId) as (Hsub & Hid & Hsp & Hrep).
    unfold complete, deliver, obs_of, allocated, recv_of.
    cbn [fst snd cron brk]. rewrite Hsp, Hrep.
    apply kind_removal; simpl; done. }
  destruct ev; unfold step; cbn [cron brk].
  - (* Start *)
    unfold Cron.Start. destruct (Cron.running c) eqn:Hr.
    + by apply Hsame'.
    + apply (kind_times _ _ _ _
               (store (λ e, Entry.set_Next
                              (Schedule.Next (Entry.Schedule e)
                                 (Cron.now (Cron.set_running true c) clock)) e)
                  <$> Cron.entries c)); simpl; try done.
      * apply prologue_retimed.
      * apply Sort_perm.
      * by intros sp ?%elem_of_nil.
  - (* Stop *)
    unfold Cron.Stop. destruct (Cron.running c) eqn:Hr; loop_simpl.
    + apply Hsame; try done. lia.
    + by apply Hsame'.
  - (* Schedule *)
    unfold Cron.Schedule.
    destruct (Cron.Schedule_extArgs _ extArgs) as [entry|] eqn:Hext; simpl.
    2: { apply Hsame'; try done. lia. }
    apply Schedule_extArgs_fields in Hext as (Hs & Hn & _).
    destruct (Cron.running c) eqn:Hr; simpl.
    + apply (kind_registration _ _ _ _
               (store (Entry.set_Id (Cron.id c))
                  (store (λ e, Entry.set_Next
                                 (Schedule.Next (Entry.Schedule e)
                                    (Cron.now c clock)) e)
                     (Ptr a entry))));
        rewrite ?registered_snoc; simpl; try done.
      * apply Sort_perm.
      * right. eexists. reflexivity.
    + apply (kind_registration _ _ _ _
               (Ptr a (Entry.set_Id (Cron.id c) entry)));
        rewrite ?registered_snoc; simpl; try done.
      left. by rewrite Hn.
  - (* Entries *)
    unfold Cron.Entries. destruct (Cron.running c) eqn:Hr; loop_simpl.
    + apply Hsame'; try done. lia.
    + apply Hsame'; try done. lia.
  - (* Remove *)
    unfold Cron.Remove. destruct (Cron.running c) eqn:Hr; cbn [negb].
    + by apply Hloop.
    + repeat case_match; simpl; apply kind_removal; simpl; try done.
      * apply sublist_submseteq, sublist_filter.
      * apply submseteq_nil_l.
  - (* RemoveAll *)
    unfold Cron.RemoveAll. destruct (Cron.running c) eqn:Hr; cbn [negb].
    + by apply Hloop.
    + apply kind_removal; simpl; try done. apply submseteq_nil_l.
  - (* RemoveFirst *)
    unfold Cron.RemoveFirst. destruct (Cron.running c) eqn:Hr; cbn [negb].
    + by apply Hloop.
    + repeat case_match; simpl; apply kind_removal; simpl; try done.
      apply sublist_submseteq, sublist_drop.
  - (* RemoveLast *)
    unfold Cron.RemoveLast. destruct (Cron.running c) eqn:Hr; cbn [negb].
    + by apply Hloop.
    + repeat case_match; simpl; apply kind_removal; simpl; try done.
      apply sublist_submseteq, sublist_take.
  - (* Tick *)
    destruct (Cron.running c) eqn:Hr; [|by apply Hsame'].
    loop_simpl.
    destruct (Cron.run_due (In t (Cron.location c)) (Cron.entries c))
      as [es spawned] eqn:Hdue. simpl.
    rewrite app_nil_r, Nat.add_0_r.
    apply (kind_times _ _ _ _ es); simpl; try done.
    + replace es with (Cron.run_due (In t (Cron.location c)) (Cron.entries c)).1
        by (by rewrite Hdue).
      apply run_due_retimed.
    + apply Sort_perm.
    + apply registrations_Spawned.
    + intros sp. rewrite spawns_Spawned. intros Hsp.
      destruct (run_due_spawned (In t (Cron.location c)) (Cron.entries c) sp)
        as [[_ Hd] Hin]; [by rewrite Hdue|]. done.
Qed.

Lemma carried_refl e : carried e e.
Proof. by repeat split. Qed.

Lemma carried_trans e1 e2 e3 : carried e1 e2 → carried e2 e3 → carried e1 e3.
Proof.
  unfold carried, same_but_times. intros (? & ?) (? & ?).
  split; [congruence|]. destruct_and!. split_and!; congruence.
Qed.

Lemma persists_refl es : persists es es.
Proof. intros e He. exists e. auto using carried_refl. Qed.

Lemma persists_trans es1 es2 es3 :
  persists es1 es2 → persists es2 es3 → persists es1 es3.
Proof.
  intros H12 H23 e He. destruct (H12 e He) as (e2 & He2 & Hc2).
  destruct (H23 e2 He2) as (e3 & He3 & Hc3). exists e3.
  eauto using carried_trans.
Qed.

Lemma spawns_app o1 o2 : spawns (o1 ++ o2) = spawns o1 ++ spawns o2.
Proof. apply omap_app. Qed.

Lemma registrations_app o1 o2 :
  registrations (o1 ++ o2) = registrations o1 ++ registrations o2.
Proof. apply omap_app. Qed.

Section kinds.
Context (s : Sys) (ev : Call) (s' : Sys) (obs : list Obs).
Hypothesis Hkind : step_kind s ev s' obs.

Lemma kind_idle :
  Forall idle_if_never (Cron.entries (cron s)) →
  Forall idle_if_never (Cron.entries (cron s')).
Proof.
  intros Hidle. rewrite Forall_forall in Hidle.
  destruct Hkind as [es1 _ H2 Hp _ _ _ _|_ Hsub _ _ _ _|e _ Hp _ _ He _ _ _ _].
  - rewrite Hp. clear Hp. induction H2 as [|e e' es es' Hr H2 IH]; constructor.
    + destruct Hr as [(_ & Hs & _) [Hn|[t Hn]]]; intros Hnever.
      * unfold sentinel. rewrite Hn. apply Hidle; [by left|]. by rewrite <- Hs.
      * unfold sentinel. rewrite Hn, <- Hs. apply Hnever.
    + apply IH. intros x Hx. apply Hidle. by right.
  - apply Forall_forall. intros x Hx.
    by eapply Hidle, elem_of_submseteq.
  - rewrite Hp. apply Forall_app. split; [by apply Forall_forall|].
    constructor; [|constructor]. intros Hnever. unfold sentinel.
    destruct He as [->|[t ->]]; [done|apply Hnever].
Qed.

Lemma kind_spawns sp :
  Forall idle_if_never (Cron.entries (cron s)) →
  sp ∈ spawns obs →
  ¬ never_fires (Entry.Schedule (deref (by_entry sp))).
Proof.
  intros Hidle Hsp Hnever. rewrite Forall_forall in Hidle.
  destruct Hkind as [es1 _ _ _ _ _ _ H|_ _ _ _ _ H|e _ _ _ _ _ _ _ _ H].
  - destruct (H sp Hsp) as [Hin Hreal].
    rewrite (Hidle _ Hin Hnever) in Hreal. done.
  - rewrite H in Hsp. by apply elem_of_nil in Hsp.
  - rewrite H in Hsp. by apply elem_of_nil in Hsp.
Qed.

Lemma kind_persists :
  is_removal ev = false →
  persists (Cron.entries (cron s)) (Cron.entries (cron s')).
Proof.
  intros Hev e He.
  destruct Hkind as [es1 _ H2 Hp _ _ _ _|Hrem _ _ _ _ _|e0 _ Hp _ _ _ _ _ _ _].
  - apply list_elem_of_lookup in He as [i Hi].
    destruct (Forall2_lookup_l _ _ _ _ _ H2 Hi) as (e' & Hi' & [Hc _]).
    exists e'. split; [|done]. rewrite Hp. by eapply list_elem_of_lookup_2.
  - congruence.
  - exists e. split; [|apply carried_refl]. rewrite Hp. apply elem_of_app. by left.
Qed.
End kinds.
Lemma exec_idle s evs :
  Forall idle_if_never (Cron.entries (cron s)) →
  Forall idle_if_never (Cron.entries (cron (exec s evs).1)) ∧
  ∀ sp, sp ∈ spawns (exec s evs).2 →
        ¬ never_fires (Entry.Schedule (deref (by_entry sp))).
Proof.
  revert s. induction evs as [|ev evs IH]; intros s Hidle; simpl.
  - split; [done|]. by intros sp ?%elem_of_nil.
  - pose proof (step_has_kind s ev) as Hk.
    destruct (step s ev) as [s1 o1]. simpl in Hk.
    destruct (IH s1 (kind_idle _ _ _ _ Hk Hidle)) as [Hidle2 Hsp2].
    destruct (exec s1 evs) as [s2 o2]. simpl in *. split; [done|].
    intros sp. rewrite spawns_app, elem_of_app. intros [Hsp|Hsp].
    + by eapply kind_spawns.
    + by apply Hsp2.
Qed.

Lemma exec_persists s evs :
  Forall (λ ev, is_removal ev = false) evs →
  persists (Cron.entries (cron s)) (Cron.entries (cron (exec s evs).1)).
Proof.
  intros Hevs. revert s.
  induction Hevs as [|ev evs Hev Hevs IH]; intros s; simpl.
  - apply persists_refl.
  - pose proof (step_has_kind s ev) as Hk.
    destruct (step s ev) as [s1 o1]. simpl in Hk.
    specialize (IH s1). destruct (exec s1 evs) as [s2 o2]. simpl in *.
    eapply persists_trans; [|exact IH]. by eapply kind_persists.
Qed.

(** ** Schedules that never fire *)

(** C7. Along every run of an engine, started, stopped, fed and ticked
    in any way: no goroutine is ever started for an entry whose schedule
    answers the zero time for every input (such an entry holds the zero
    time in [Next] at all times); and no event other than the four
    removal calls ever drops an entry from the registry: the record is
    still held, at the same address, with all its fields but the two
    times. *)
Theorem never_schedule_never_dispatched (location : Location) (evs : list Call) :
  let r := exec (initial location) evs in
  (∀ sp, sp ∈ spawns r.2 →
         ¬ never_fires (Entry.Schedule (deref (by_entry sp)))) ∧
  (∀ e, e ∈ Cron.entries (cron r.1) →
        never_fires (Entry.Schedule (deref e)) → sentinel e = true) ∧
  (∀ more, Forall (λ ev, is_removal ev = false) more →
           persists (Cron.entries (cron r.1))
                    (Cron.entries (cron (exec r.1 more).1))).
Proof.
  intros r.
  destruct (exec_idle (initial location) evs) as [Hidle Hsp]; [constructor|].
  split_and!.
  - exact Hsp.
  - intros e He. rewrite Forall_forall in Hidle. by apply Hidle.
  - intros more Hmore. by apply exec_persists.
Qed.

Lemma never_schedule_never_dispatched_witness :
  let r := exec (initial "UTC")
             [CallSchedule never noop [VSlice []] (at_ 0); CallStart (at_ 1)] in
  persists (Cron.entries (cron r.1))
    (Cron.entries (cron (exec r.1 [Tick (at_ 5); CallStop; Tick (at_ 9)]).1)).
Proof.
  apply (never_schedule_never_dispatched "UTC"
           [CallSchedule never noop [VSlice []] (at_ 0); CallStart (at_ 1)]).
  repeat constructor.
Defined.

(** ** The identity counter *)

Lemma wrap32_add a b : wrap32 (wrap32 a + b) = wrap32 (a + b).
Proof.
  unfold wrap32.
  replace ((a + 2 ^ 31) `mod` 2 ^ 32 - 2 ^ 31 + b + 2 ^ 31)%Z
    with ((a + 2 ^ 31) `mod` 2 ^ 32 + b)%Z by lia.
  rewrite Zplus_mod_idemp_l. do 2 f_equal. lia.
Qed.

Lemma wrap32_idemp a : wrap32 (wrap32 a) = wrap32 a.
Proof. pose proof (wrap32_add a 0) as H. by rewrite !Z.add_0_r in H. Qed.

Lemma wrap32_small z : (- 2 ^ 31 ≤ z < 2 ^ 31)%Z → wrap32 z = z.
Proof. intros Hz. unfold wrap32. rewrite Z.mod_small; lia. Qed.

Lemma wrap32_inj a b :
  (0 ≤ a < 2 ^ 32)%Z → (0 ≤ b < 2 ^ 32)%Z → wrap32 a = wrap32 b → a = b.
Proof.
  unfold wrap32. change (2 ^ 32)%Z with 4294967296%Z.
  change (2 ^ 31)%Z with 2147483648%Z. intros Ha Hb.
  pose proof (Z.mod_pos_bound (a + 2147483648) 4294967296 eq_refl).
  pose proof (Z.mod_pos_bound (b + 2147483648) 4294967296 eq_refl).
  pose proof (Z.div_mod (a + 2147483648) 4294967296 ltac:(done)).
  pose proof (Z.div_mod (b + 2147483648) 4294967296 ltac:(done)).
  lia.
Qed.

Section kind_identities.
Context (s : Sys) (ev : Call) (s' : Sys) (obs : list Obs).
Hypothesis Hkind : step_kind s ev s' obs.

Lemma kind_issued :
  (registrations obs = [] ∧ Cron.id (cron s') = Cron.id (cron s)) ∨
  (ids (registrations obs) = [Cron.id (cron s)] ∧
   Cron.id (cron s') = wrap32 (Cron.id (cron s) + 1)).
Proof.
  destruct Hkind as [es1 _ _ _ Hid _ Hr _|_ _ Hid _ Hr _|e _ _ _ He _ Hid _ Hr _].
  - by left.
  - by left.
  - right. rewrite Hr. simpl. by rewrite He.
Qed.

Lemma kind_held :
  ids (Cron.entries (cron s'))
  ⊆+ ids (Cron.entries (cron s)) ++ ids (registrations obs).
Proof.
  unfold ids.
  destruct Hkind as [es1 _ H2 Hp _ _ Hr _|_ Hsub _ _ Hr _|e _ Hp _ _ _ _ _ Hr _];
    rewrite Hr.
  - rewrite app_nil_r, Hp. apply Permutation_submseteq.
    enough ((λ e, Entry.Id (deref e)) <$> es1
            = (λ e, Entry.Id (deref e)) <$> Cron.entries (cron s)) as -> by done.
    clear Hp. induction H2 as [|e e' es es' Hr' H2 IH]; [done|]. csimpl.
    rewrite IH. f_equal. by destruct Hr' as [(_ & _ & _ & -> & _) _].
  - rewrite app_nil_r. by apply fmap_submseteq.
  - rewrite Hp, fmap_app. done.
Qed.
End kind_identities.

(** The identities issued along a run are the successive values of the
    counter. *)
Lemma exec_issued s evs :
  wrap32 (Cron.id (cron s)) = Cron.id (cron s) →
  let r := exec s evs in
  let issued := ids (registrations r.2) in
  issued = (λ k, wrap32 (Cron.id (cron s) + Z.of_nat k)) <$> seq 0 (length issued) ∧
  Cron.id (cron r.1) = wrap32 (Cron.id (cron s) + Z.of_nat (length issued)) ∧
  ids (Cron.entries (cron r.1)) ⊆+ ids (Cron.entries (cron s)) ++ issued.
Proof.
  revert s. induction evs as [|ev evs IH]; intros s Hs; simpl.
  - rewrite Z.add_0_r, app_nil_r. done.
  - pose proof (step_has_kind s ev) as Hk.
    destruct (step s ev) as [s1 o1]. simpl in Hk.
    pose proof (kind_held _ _ _ _ Hk) as Hheld.
    specialize (IH s1).
    destruct (exec s1 evs) as [s2 o2]. simpl in *.
    unfold ids in *. rewrite registrations_app, fmap_app.
    destruct (kind_issued _ _ _ _ Hk) as [[Hr Hid]|[Hr Hid]].
    + rewrite Hr in *. simpl. rewrite Hid in IH.
      destruct (IH Hs) as (IH1 & IH2 & IH3). split_and!; [done..|].
      etrans; [exact IH3|]. rewrite app_nil_r in Hheld.
      by apply submseteq_app.
    + unfold ids in Hr. rewrite Hr in *. rewrite Hid in IH.
      destruct IH as (IH1 & IH2 & IH3); [apply wrap32_idemp|].
      simpl. split_and!.
      * change (Z.of_nat 0) with 0%Z. rewrite Z.add_0_r, Hs. f_equal.
        change (list_fmap nat Z ?f ?l) with (f <$> l).
        rewrite <- (fmap_S_seq 0), <- list_fmap_compose.
        rewrite IH1 at 1. apply list_fmap_ext. intros _ k _. simpl.
        rewrite wrap32_add. f_equal. lia.
      * rewrite IH2, wrap32_add. f_equal. lia.
      * etrans; [exact IH3|].
        match goal with
        | |- _ ⊆+ ?A ++ ?x :: ?B =>
            replace (A ++ x :: B) with ((A ++ [x]) ++ B)
              by (by rewrite <- app_assoc)
        end.
        by apply submseteq_app.
Qed.

Lemma submseteq_NoDup {A} (l k : list A) : l ⊆+ k → NoDup k → NoDup l.
Proof.
  intros (l2 & Hp & Hsub)%submseteq_sublist_r Hk. rewrite Hp.
  by eapply sublist_NoDup.
Qed.

Lemma issued_lookup (f : nat → Z) (l : list Z) i x :
  l = f <$> seq 0 (length l) → l !! i = Some x → x = f i.
Proof.
  intros Hl Hi. pose proof (lookup_lt_Some _ _ _ Hi) as Hlt.
  rewrite Hl, list_lookup_fmap, lookup_seq_lt in Hi by done.
  by injection Hi.
Qed.

Lemma register_times_issued s n :
  Cron.running (cron s) = false →
  length (ids (registrations (exec s (register_times n)).2)) = n.
Proof.
  unfold ids. rewrite length_fmap.
  revert s. induction n as [|n IH]; intros [c a] Hr; [done|].
  unfold register_times in *. rewrite replicate_S.
  cbn [exec]. unfold step at 1. cbn [cron brk] in *.
  unfold Cron.Schedule. rewrite Hr. simpl.
  match goal with
  | |- context [exec ?s1 _] => specialize (IH s1 Hr); destruct (exec s1 _)
  end.
  cbn [fst snd] in *.
  rewrite registered_snoc, registrations_app, length_app, IH. done.
Qed.

Lemma wrapped_identity_is_smaller (n i1 i2 : nat) :
  Z.of_nat i1 = 2147483647%Z → Z.of_nat i2 = 2147483648%Z → (i2 < n)%nat →
  ¬ increasing (ids (registrations (exec (initial "UTC") (register_times n)).2)).
Proof.
  intros H1 H2 Hlt Hinc.
  destruct (exec_issued (initial "UTC") (register_times n) eq_refl) as (Hl & _).
  cbv zeta in Hl. change (Cron.id (cron (initial "UTC"))) with 0%Z in Hl.
  pose proof (register_times_issued (initial "UTC") n eq_refl) as Hn.
  revert Hinc Hl Hn.
  generalize (ids (registrations (exec (initial "UTC") (register_times n)).2)).
  intros l Hinc Hl Hn.
  assert (∀ i, (i < n)%nat → l !! i = Some (wrap32 (Z.of_nat i))) as Hi.
  { intros i Hi. by rewrite Hl, list_lookup_fmap, lookup_seq_lt by lia. }
  specialize (Hinc i1 i2 _ _ (Hi i1 ltac:(lia)) (Hi i2 Hlt) ltac:(lia)).
  rewrite H1, H2 in Hinc. revert Hinc.
  unfold wrap32. change (2 ^ 32)%Z with 4294967296%Z.
  change (2 ^ 31)%Z with 2147483648%Z.
  change (2147483647 + 2147483648)%Z with 4294967295%Z.
  change (2147483648 + 2147483648)%Z with 4294967296%Z.
  rewrite Z.mod_small, Z_mod_same_full by lia. lia.
Qed.

(** After 2^31 registrations the counter has wrapped: the next identity
    is the smallest [int32]. *)
Lemma identity_wraps_counterexample :
  ¬ (∀ (location : Location) (evs : list Call),
       increasing (ids (registrations (exec (initial location) evs).2))).
Proof.
  intros H.
  apply (wrapped_identity_is_smaller
           (Z.to_nat 2147483649) (Z.to_nat 2147483647) (Z.to_nat 2147483648)).
  - apply Z2Nat.id. lia.
  - apply Z2Nat.id. lia.
  - apply Z2Nat.inj_lt; lia.
  - apply H.
Qed.

(** C9, amended. Along every run of one engine, whether an entry is
    registered by the caller while the engine is stopped or by the loop
    on an add message, the k-th registration gets the identity
    [wrap32 k], counting from 0.  So as long as at most 2^31
    registrations have been made the identities are 0, 1, 2, ... in
    order of registration: strictly increasing, pairwise distinct and
    never reused; up to 2^32 registrations they are still pairwise
    distinct.  The entries held by the registry carry identities that
    were issued, each at most as often as it was issued. *)
Theorem identities_increase_until_wrap (location : Location) (evs : list Call) :
  let r := exec (initial location) evs in
  let issued := ids (registrations r.2) in
  let n := Z.of_nat (length issued) in
  (∀ k x, issued !! k = Some x → x = wrap32 (Z.of_nat k)) ∧
  Cron.id (cron r.1) = wrap32 n ∧
  ids (Cron.entries (cron r.1)) ⊆+ issued ∧
  ((n ≤ 2 ^ 31)%Z →
   (∀ k x, issued !! k = Some x → x = Z.of_nat k) ∧
   increasing issued ∧ NoDup issued ∧ NoDup (ids (Cron.entries (cron r.1)))) ∧
  ((n ≤ 2 ^ 32)%Z →
   NoDup issued ∧ NoDup (ids (Cron.entries (cron r.1)))).
Proof.
  intros r issued n.
  destruct (exec_issued (initial location) evs eq_refl) as (Hl & Hid & Hheld).
  fold r in Hl, Hid, Hheld. cbv zeta in Hl, Hid, Hheld. fold issued in Hl, Hid, Hheld.
  change (Cron.id (cron (initial location))) with 0%Z in Hl, Hid.
  change (ids (Cron.entries (cron (initial location)))) with (@nil Z) in Hheld.
  rewrite app_nil_l in Hheld.
  assert (∀ k x, issued !! k = Some x → x = wrap32 (Z.of_nat k)) as Hk.
  { intros k x Hx. by apply (issued_lookup (λ k, wrap32 (0 + Z.of_nat k)) issued). }
  assert ((n ≤ 2 ^ 32)%Z → NoDup issued) as Hnodup.
  { intros Hn. apply NoDup_alt. intros i j x Hi Hj.
    pose proof (lookup_lt_Some _ _ _ Hi). pose proof (lookup_lt_Some _ _ _ Hj).
    apply Hk in Hi, Hj. subst x.
    apply wrap32_inj in Hj; lia. }
  split_and!.
  - exact Hk.
  - exact Hid.
  - exact Hheld.
  - intros Hn.
    assert (∀ k x, issued !! k = Some x → x = Z.of_nat k) as Hk'.
    { intros k x Hx. pose proof (lookup_lt_Some _ _ _ Hx).
      rewrite (Hk k x Hx). apply wrap32_small. lia. }
    assert (NoDup issued) by (apply Hnodup; lia).
    split_and!; [done| |done|by eapply submseteq_NoDup].
    intros i j x y Hi Hj Hij. apply Hk' in Hi, Hj. lia.
  - intros Hn. split; [by apply Hnodup|].
    eapply submseteq_NoDup; [done|by apply Hnodup].
Qed.

Lemma identities_increase_until_wrap_witness :
  increasing (ids (registrations (exec (initial "UTC") mixed_registrations).2)) ∧
  NoDup (ids (Cron.entries (cron (exec (initial "UTC") mixed_registrations).1))).
Proof.
  destruct (identities_increase_until_wrap "UTC" mixed_registrations)
    as (_ & _ & _ & H & _).
  destruct H as (_ & Hinc & _ & Hnd); [vm_compute; discriminate|].
  split; [exact Hinc|exact Hnd].
Defined.

(** ** The two mutation paths *)

(** After the same three calls a running engine lists the entry with
    identity 0 and a stopped engine the entry with identity 1. *)
Lemma paths_differ_counterexample :
  ¬ (∀ (ops : list Call) (t0 : Time),
       Forall (λ ev, is_mutation ev = true) ops →
       Forall2 (λ run stop, ids run ≡ₚ ids stop)
         (Entries_result (exec (step (initial "UTC") (CallStart t0)).1 ops).1)
         (Entries_result (exec (initial "UTC") ops).1)).
Proof.
  intros H. specialize (H late_early_remove_first (at_ 0)).
  assert (ids <$> Entries_result
            (exec (step (initial "UTC") (CallStart (at_ 0))).1
               late_early_remove_first).1 = [[0%Z]]) as Hrun by reflexivity.
  assert (ids <$> Entries_result (exec (initial "UTC") late_early_remove_first).1
          = [[1%Z]]) as Hstop by reflexivity.
  destruct (Entries_result (exec (step _ _).1 _).1) as [|run [|]]; try done.
  destruct (Entries_result (exec (initial _) _).1) as [|stop [|]]; try done.
  injection Hrun as Hrun. injection Hstop as Hstop.
  assert (ids run ≡ₚ ids stop) as Hp.
  { assert (Forall (λ ev, is_mutation ev = true) late_early_remove_first) as Hm
      by (repeat constructor).
    specialize (H Hm). by inversion H. }
  rewrite Hrun, Hstop in Hp. apply Permutation_singleton_inj in Hp. done.
Qed.

Lemma run_due_content now es :
  content <$> (Cron.run_due now es).1 = content <$> es.
Proof.
  induction es as [|e es IH]; simpl; [done|].
  destruct (After _ _ || IsZero _); [done|].
  destruct (Cron.run_due now es) as [rest' spawned]. csimpl in *.
  by f_equal.
Qed.

Lemma prologue_content now (es : list EntryPtr) :
  content <$> (store (λ e, Entry.set_Next
                             (Schedule.Next (Entry.Schedule e) now) e) <$> es)
  = content <$> es.
Proof. rewrite <- list_fmap_compose. by apply list_fmap_ext. Qed.

Lemma filter_content (id : Z) (es : list EntryPtr) :
  content <$> filter (λ v, id ≠ Entry.Id (deref v)) es
  = filter (λ x, id ≠ Entry.Id x.2) (content <$> es).
Proof.
  induction es as [|e es IH]; [done|]. csimpl.
  rewrite !filter_cons. simpl. case_decide; csimpl; by rewrite IH.
Qed.

Lemma Sort_content less (es : list EntryPtr) :
  content <$> sort.Sort less es ≡ₚ content <$> es.
Proof. by rewrite Sort_perm. Qed.

Lemma same_registry_length sr ss :
  same_registry sr ss →
  length (Cron.entries (cron sr)) = length (Cron.entries (cron ss)).
Proof.
  intros (_ & _ & _ & _ & Hp). apply Permutation_length in Hp.
  by rewrite !length_fmap in Hp.
Qed.

Lemma same_registry_start s t0 :
  Cron.running (cron s) = false →
  same_registry (step s (CallStart t0)).1 s.
Proof.
  destruct s as [c a]. unfold same_registry, step, Cron.Start. simpl.
  intros Hr. rewrite Hr.
  unfold Cron.run_enter, Cron.run_sort, Cron.run_prologue. simpl.
  split_and!; try done.
  by rewrite Sort_content, prologue_content.
Qed.

(** An order-free event keeps a running and a stopped engine in step. *)
Lemma same_registry_step sr ss ev :
  same_registry sr ss → order_free ev = true →
  same_registry (step sr ev).1 (step ss ev).1.
Proof.
  intros Hsame Hev. pose proof (same_registry_length _ _ Hsame) as Hlen.
  destruct Hsame as (Hr & Hs & Hid & Hbrk & Hp).
  destruct sr as [cr ar], ss as [cs as_]. simpl in *. subst as_.
  unfold same_registry.
  destruct ev; try done; unfold step; cbn [cron brk].
  - (* Schedule *)
    unfold Cron.Schedule. rewrite Hr, Hs.
    destruct (Cron.Schedule_extArgs _ extArgs) as [entry|]; simpl;
      [|by split_and!].
    unfold Cron.run_sort. simpl.
    split_and!; [(done || by rewrite Hid)..|].
    rewrite Sort_content, !fmap_app, Hp, Hid. done.
  - (* Remove *)
    simpl in Hev. apply Z.leb_le in Hev.
    unfold Cron.Remove. rewrite Hr, Hs. loop_simpl. rewrite Hlen.
    destruct (length (Cron.entries cs) <=? 0)%nat eqn:Hempty.
    { simpl. by split_and!. }
    destruct (0 <=? id)%Z eqn:Hpos; simpl.
    + unfold Cron.run_sort. simpl. split_and!; [done..|].
      by rewrite Sort_content, !filter_content, Hp.
    + assert (id = -1)%Z as -> by (apply Z.leb_gt in Hpos; lia). simpl.
      by split_and!.
  - (* RemoveAll *)
    unfold Cron.RemoveAll. rewrite Hr, Hs. loop_simpl. rewrite Hlen.
    destruct (length (Cron.entries cs) <=? 0)%nat eqn:Hempty; simpl.
    + split_and!; [done..|]. rewrite Hp.
      destruct (Cron.entries cs); [done|discriminate].
    + by split_and!.
  - (* Tick *)
    rewrite Hr, Hs. loop_simpl.
    destruct (Cron.run_due (In t (Cron.location cr)) (Cron.entries cr))
      as [es spawned] eqn:Hdue. unfold Cron.run_sort. simpl.
    split_and!; [(done || lia)..|].
    rewrite Sort_content, <- Hp.
    pose proof (run_due_content (In t (Cron.location cr)) (Cron.entries cr))
      as Hc.
    rewrite Hdue in Hc. simpl in Hc. by rewrite Hc.
Qed.

Lemma same_registry_exec sr ss evs :
  same_registry sr ss → Forall (λ ev, order_free ev = true) evs →
  same_registry (exec sr evs).1 (exec ss evs).1.
Proof.
  intros Hsame Hevs. revert sr ss Hsame.
  induction Hevs as [|ev evs Hev Hevs IH]; intros sr ss Hsame; [done|].
  simpl. pose proof (same_registry_step sr ss ev Hsame Hev) as Hstep.
  destruct (step sr ev) as [sr1 or1], (step ss ev) as [ss1 os1].
  specialize (IH sr1 ss1 Hstep).
  by destruct (exec sr1 evs), (exec ss1 evs).
Qed.

Lemma Entries_result_snapshot s :
  Entries_result s = [Cron.entrySnapshot (cron s) (brk s)].
Proof.
  destruct s as [c a]. unfold Entries_result, step, Cron.Entries. simpl.
  by destruct (Cron.running c).
Qed.

Lemma snapshot_listed c a :
  listed <$> Cron.entrySnapshot c a
  = (λ x, Entry.set_Params "" (Entry.set_Task "" x.2))
      <$> (content <$> Cron.entries c).
Proof.
  apply list_eq. intros i. unfold Cron.entrySnapshot.
  rewrite !list_lookup_fmap, list_lookup_imap.
  by destruct (Cron.entries c !! i).
Qed.

(** C5, amended. Take any sequence of registrations, removals by an
    identity [id >= -1], [RemoveAll] calls and timer firings, and apply
    it to a stopped engine and to the same engine once started.  The two
    registries then hold the same records at the same addresses, equal in
    every field but [Next] and [Prev], possibly in a different order; the
    identity counters agree; and what [Entries] returns agrees in the
    same way.  [RemoveFirst] and [RemoveLast] are left out: they act on
    the order of the registry, which the loop changes by sorting. *)
Theorem mutation_paths_agree_but_order_and_times
    (s0 : Sys) (t0 : Time) (evs : list Call) :
  Cron.running (cron s0) = false →
  Forall (λ ev, order_free ev = true) evs →
  let sr := (exec (step s0 (CallStart t0)).1 evs).1 in
  let ss := (exec s0 evs).1 in
  content <$> Cron.entries (cron sr) ≡ₚ content <$> Cron.entries (cron ss) ∧
  Cron.id (cron sr) = Cron.id (cron ss) ∧
  (∃ run stop,
     Entries_result sr = [run] ∧ Entries_result ss = [stop] ∧
     listed <$> run ≡ₚ listed <$> stop) ∧
  same_registry sr ss.
Proof.
  intros Hr Hevs sr ss.
  assert (same_registry sr ss) as Hsame
    by (by apply same_registry_exec; [apply same_registry_start|]).
  pose proof Hsame as (_ & _ & Hid & _ & Hp).
  split_and!; try done.
  eexists _, _. rewrite !Entries_result_snapshot. split_and!; try done.
  by rewrite !snapshot_listed, Hp.
Qed.

Lemma mutation_paths_agree_but_order_and_times_witness :
  content <$> Cron.entries
                (cron (exec (step (initial "UTC") (CallStart (at_ 0))).1
                         order_free_calls).1)
  ≡ₚ content <$> Cron.entries (cron (exec (initial "UTC") order_free_calls).1).
Proof.
  refine (proj1 (mutation_paths_agree_but_order_and_times
                   (initial "UTC") (at_ 0) order_free_calls eq_refl _)).
  repeat constructor.
Defined.

(** ** Two invariants of every run *)

Lemma step_sorted_while_running s ev :
  sorted_while_running s → sorted_while_running (step s ev).1.
Proof.
  destruct s as [c a]. unfold sorted_while_running. cbn [cron].
  intros Hinv.
  assert (∀ targetId,
            Cron.running c = true →
            ordered byTime.Less
              (Cron.entries (Cron.after (Cron.run_pass c a (from_remove targetId)))))
    as Hloop.
  { intros targetId Hr. unfold Cron.run_pass, Cron.run_select.
    repeat case_match; simpl in *; try discriminate;
      first [apply Sort_byTime_ordered | by apply Hinv]. }
  destruct ev; unfold step; cbn [cron brk].
  - unfold Cron.Start. destruct (Cron.running c) eqn:Hr; simpl.
    + intros _. by apply Hinv.
    + intros _. apply Sort_byTime_ordered.
  - unfold Cron.Stop. destruct (Cron.running c) eqn:Hr; loop_simpl.
    + done.
    + by rewrite Hr.
  - unfold Cron.Schedule.
    destruct (Cron.Schedule_extArgs _ extArgs) as [entry|]; simpl.
    2: { intros Hr. by apply Hinv. }
    destruct (Cron.running c) eqn:Hr; simpl.
    + intros _. apply Sort_byTime_ordered.
    + by rewrite Hr.
  - unfold Cron.Entries. destruct (Cron.running c) eqn:Hr; loop_simpl.
    + intros _. by apply Hinv.
    + by rewrite Hr.
  - unfold Cron.Remove. destruct (Cron.running c) eqn:Hr; cbn [negb].
    + intros _. by apply Hloop.
    + repeat case_match; simpl; by rewrite Hr.
  - unfold Cron.RemoveAll. destruct (Cron.running c) eqn:Hr; cbn [negb].
    + intros _. by apply Hloop.
    + simpl. by rewrite Hr.
  - unfold Cron.RemoveFirst. destruct (Cron.running c) eqn:Hr; cbn [negb].
    + intros _. by apply Hloop.
    + repeat case_match; simpl; by rewrite Hr.
  - unfold Cron.RemoveLast. destruct (Cron.running c) eqn:Hr; cbn [negb].
    + intros _. by apply Hloop.
    + repeat case_match; simpl; by rewrite Hr.
  - destruct (Cron.running c) eqn:Hr; [|simpl; by rewrite Hr].
    loop_simpl.
    destruct (Cron.run_due _ _) as [es spawned]. simpl.
    intros _. apply Sort_byTime_ordered.
Qed.

Lemma exec_sorted_while_running s evs :
  sorted_while_running s → sorted_while_running (exec s evs).1.
Proof.
  revert s. induction evs as [|ev evs IH]; intros s Hs; [done|]. simpl.
  pose proof (step_sorted_while_running s ev Hs) as Hstep.
  destruct (step s ev) as [s1 o1]. specialize (IH s1 Hstep).
  by destruct (exec s1 evs).
Qed.

Lemma kind_allocated_below s ev s' obs :
  step_kind s ev s' obs → allocated_below s → allocated_below s'.
Proof.
  unfold allocated_below. intros Hkind Hs. rewrite Forall_forall in Hs.
  destruct Hkind as [es1 _ H2 Hp _ Hb _ _|_ Hsub _ Hb _ _|e _ Hp Ha _ _ _ Hb _ _].
  - rewrite Hp. clear Hp. induction H2 as [|e e' es es' Hr H2 IH]; constructor.
    + destruct Hr as [[-> _] _]. specialize (Hs e ltac:(by left)). lia.
    + apply IH. intros x Hx. apply Hs. by right.
  - rewrite Hb. apply Forall_forall. intros x Hx.
    by eapply Hs, elem_of_submseteq.
  - rewrite Hp, Hb. apply Forall_app. split.
    + apply Forall_forall. intros x Hx. specialize (Hs x Hx). lia.
    + constructor; [lia|constructor].
Qed.

Lemma exec_allocated_below s evs :
  allocated_below s → allocated_below (exec s evs).1.
Proof.
  revert s. induction evs as [|ev evs IH]; intros s Hs; [done|]. simpl.
  pose proof (step_has_kind s ev) as Hk.
  destruct (step s ev) as [s1 o1]. simpl in Hk.
  specialize (IH s1 (kind_allocated_below _ _ _ _ Hk Hs)).
  by destruct (exec s1 evs).
Qed.

(** ** The timer case, on the registry the loop holds *)

(** C2. When the timer fires, the registry is as the sort left it (this
    holds whenever the loop is running), and the loop fires exactly the
    entries that are due at the captured time (a real [Next] at or before
    it), which form a prefix of the registry: each is dispatched, in
    order, with the first [ArgLen] of (identity, tag, task, params), its
    [Prev] becomes its old [Next] and its [Next] becomes [Schedule.Next]
    of the captured time.  The scan stops at the first entry whose [Next]
    is after the captured time or is the zero time; from there on no
    entry is dispatched or changed. *)
Theorem timer_case_fires_due_prefix :
  (∀ location evs,
     let s := (exec (initial location) evs).1 in
     Cron.running (cron s) = true →
     ordered byTime.Less (Cron.entries (cron s))) ∧
  (∀ c a tick,
     Cron.running c = true →
     let h := Cron.run_select c a (from_timer tick) in
     step (mkSys c a) (Tick tick)
     = (mkSys (Cron.run_sort (Cron.after h)) a, Spawned <$> Cron.spawned h)) ∧
  (∀ c a tick,
     ordered byTime.Less (Cron.entries c) →
     let now := In tick (Cron.location c) in
     let h := Cron.run_select c a (from_timer tick) in
     ∃ k : nat,
       Forall (due now) (take k (Cron.entries c)) ∧
       Forall (not_due now) (drop k (Cron.entries c)) ∧
       Cron.after h
       = Cron.set_entries
           ((Cron.fire now <$> take k (Cron.entries c))
            ++ drop k (Cron.entries c))
           c ∧
       Cron.spawned h = take k (Cron.entries c) ≫= Cron.dispatch ∧
       (∀ e, e ∈ take k (Cron.entries c) →
             addr (Cron.fire now e) = addr e ∧
             Entry.Prev (deref (Cron.fire now e)) = Entry.Next (deref e) ∧
             Entry.Next (deref (Cron.fire now e))
             = Schedule.Next (Entry.Schedule (deref e)) now ∧
             same_but_times (deref (Cron.fire now e)) (deref e)) ∧
       (∀ e, e ∈ take k (Cron.entries c) →
             (0 ≤ Entry.ArgLen (deref e) ≤ 4)%Z →
             Cron.dispatch e
             = [Go e (Entry.Job (deref e))
                   (take (Z.to_nat (Entry.ArgLen (deref e))) (aux_values e))])).
Proof.
  split_and!.
  - intros location evs s. by apply exec_sorted_while_running.
  - intros c a tick Hr h. subst h. unfold step. cbn [cron brk]. rewrite Hr.
    loop_simpl. destruct (Cron.run_due _ _) as [es spawned]. simpl.
    by rewrite app_nil_r, Nat.add_0_r.
  - intros c a tick Hord now h.
    destruct (timer_pass c a tick Hord) as (k & Hk & Hd & Hafter & Hsp).
    exists k. split_and!; [done..| |].
    + intros e _. apply fire_fields.
    + intros e _ Hn. by apply dispatch_in_range.
Qed.

Lemma timer_case_fires_due_prefix_witness :
  ∃ k : nat,
    Cron.spawned (Cron.run_select (holding registry_a) 4 (from_timer (at_ 6)))
    = take k registry_a ≫= Cron.dispatch.
Proof.
  destruct (proj2 (proj2 timer_case_fires_due_prefix)
              (holding registry_a) 4 (at_ 6) registry_a_ordered)
    as (k & _ & _ & _ & H & _).
  exists k. exact H.
Defined.

(** ** What a listing returns *)

(** C4. What [entrySnapshot] returns, and [Entries] with it: one new
    record per entry, at an address no entry of the registry has, with
    the entry's [Schedule], [Next], [Prev], [Job], [Id], [ArgLen] and
    [Tag]; its [Task] and [Params] are empty whatever the entry holds.
    An entry registered with task "task" and params "params" is listed
    with both empty, by a stopped and by a running engine. *)
Theorem entrySnapshot_omits_Task_and_Params :
  (∀ c a i e,
     Cron.entries c !! i = Some e →
     ∃ s, Cron.entrySnapshot c a !! i = Some s ∧
          addr s = (a + i)%nat ∧
          Entry.Schedule (deref s) = Entry.Schedule (deref e) ∧
          Entry.Next (deref s) = Entry.Next (deref e) ∧
          Entry.Prev (deref s) = Entry.Prev (deref e) ∧
          Entry.Job (deref s) = Entry.Job (deref e) ∧
          Entry.Id (deref s) = Entry.Id (deref e) ∧
          Entry.ArgLen (deref s) = Entry.ArgLen (deref e) ∧
          Entry.Tag (deref s) = Entry.Tag (deref e) ∧
          Entry.Task (deref s) = "" ∧
          Entry.Params (deref s) = "") ∧
  (∀ c a, length (Cron.entrySnapshot c a) = length (Cron.entries c)) ∧
  (∀ location evs,
     let s := (exec (initial location) evs).1 in
     Entries_result s = [Cron.entrySnapshot (cron s) (brk s)] ∧
     NoDup (addr <$> Cron.entrySnapshot (cron s) (brk s)) ∧
     ∀ x e, x ∈ Cron.entrySnapshot (cron s) (brk s) →
            e ∈ Cron.entries (cron s) → addr x ≠ addr e) ∧
  (let r := exec (initial "UTC") register_and_list in
   tasks (Cron.entries (cron r.1)) = [("task", "params")] ∧
   tasks <$> replies r.2 = [[("", "")]]) ∧
  (let r := exec (initial "UTC") (CallStart (at_ 0) :: register_and_list) in
   tasks (Cron.entries (cron r.1)) = [("task", "params")] ∧
   tasks <$> replies r.2 = [[("", "")]]).
Proof.
  split_and!.
  - intros c a i e Hi. eexists. split; [by apply entrySnapshot_lookup|].
    by repeat split.
  - intros c a. apply length_imap.
  - intros location evs s.
    assert (∀ i x, Cron.entrySnapshot (cron s) (brk s) !! i = Some x →
                   addr x = (brk s + i)%nat) as Haddr.
    { intros i x. unfold Cron.entrySnapshot. rewrite list_lookup_imap.
      destruct (Cron.entries (cron s) !! i); [|done]. by intros [= <-]. }
    split_and!.
    + apply Entries_result_snapshot.
    + apply NoDup_alt. intros i j a. rewrite !list_lookup_fmap.
      destruct (_ !! i) as [x|] eqn:Hi; [|done].
      destruct (_ !! j) as [y|] eqn:Hj; [|done].
      apply Haddr in Hi, Hj. simpl. intros [= <-] [= Heq]. lia.
    + intros x e [i Hi]%list_elem_of_lookup He.
      assert (allocated_below s) as Hbelow
        by (apply exec_allocated_below; constructor).
      unfold allocated_below in Hbelow. rewrite Forall_forall in Hbelow.
      specialize (Hbelow e He). apply Haddr in Hi. lia.
  - by vm_compute.
  - by vm_compute.
Qed.

(** ** Sample runs *)

(** Real times in ascending order, ties in the order they came, zero
    times last. *)
Example sort_sample :
  times <$> sort.Sort byTime.Less
              [sample 0 0 0 0; sample 1 1 0 7; sample 2 2 0 0;
               sample 3 3 0 (-4); sample 4 4 0 7]
  = [(3, -4, 0); (1, 7, 0); (4, 7, 0); (0, 0, 0); (2, 0, 0)]%Z.
Proof. reflexivity. Qed.

(** The entry of arity 9 advances at 104 and 108 and no goroutine is
    started for it; the entry of arity 2 is dispatched at 110 with its
    identity and tag. *)
Example arity_nine_sample :
  let r := exec (initial "UTC") arity_nine_run in
  times <$> Cron.entries (cron r.1) = [(1, 112, 108); (0, 120, 110)]%Z ∧
  started <$> spawns r.2 = [(0%Z, [VInt32 0; VString "tag"])].
Proof. split; reflexivity. Qed.

(** [Remove(-2)] empties the registry of a stopped engine and drops the
    first entry, in sorted order, of a running one. *)
Example remove_minus_two_sample :
  ids (Cron.entries (cron (exec (initial "UTC") remove_minus_two).1)) = [] ∧
  ids (Cron.entries
         (cron (exec (initial "UTC") (CallStart (at_ 0) :: remove_minus_two)).1))
  = [0%Z].
Proof. split; reflexivity. Qed.

(** A registration leaves [Next] at the zero time on a stopped engine
    and sets it from the schedule on a running one. *)
Example registration_times_sample :
  times <$> Cron.entries
              (cron (exec (initial "UTC")
                       [CallSchedule (every 10) noop [VSlice []] (at_ 3)]).1)
  = [(0, 0, 0)]%Z ∧
  times <$> Cron.entries
              (cron (exec (initial "UTC")
                       [CallStart (at_ 0);
                        CallSchedule (every 10) noop [VSlice []] (at_ 3)]).1)
  = [(0, 13, 0)]%Z.
Proof. split; reflexivity. Qed.

(** * Further properties of the code *)

(** ** [byTime] as a [sort.Interface] *)

(** X1. [byTime.Less] is a strict weak order, as [sort.Sort] needs: no
    entry is less than itself, less is transitive, and being less in
    neither direction is transitive too. *)
Theorem Less_strict_weak_order (a b c : EntryPtr) :
  byTime.Less a a = false ∧
  (byTime.Less a b = true → byTime.Less b a = false) ∧
  (byTime.Less a b = true → byTime.Less b c = true → byTime.Less a c = true) ∧
  (byTime.Less a b = false → byTime.Less b a = false →
   byTime.Less b c = false → byTime.Less c b = false →
   byTime.Less a c = false ∧ byTime.Less c a = false).
Proof.
  unfold byTime.Less, IsZero, Before.
  split_and!; repeat case_match; try done; try lia; intros; split; lia.
Qed.

Lemma Less_strict_weak_order_witness :
  byTime.Less (sample 0 0 0 3) (sample 2 2 0 0) = true.
Proof.
  exact (proj1 (proj2 (proj2 (Less_strict_weak_order
                                (sample 0 0 0 3) (sample 1 1 0 8)
                                (sample 2 2 0 0))))
               eq_refl eq_refl).
Defined.

(** X2. [Swap(i, j)] with both indices in range exchanges the two slots
    and touches nothing else: the slice keeps its length and its
    entries, and swapping again restores it. *)
Theorem Swap_exchanges (s s' : list EntryPtr) (i j : nat) :
  byTime.Swap s i j = Some s' →
  s' !! i = s !! j ∧ s' !! j = s !! i ∧
  (∀ k, k ≠ i → k ≠ j → s' !! k = s !! k) ∧
  byTime.Len s' = byTime.Len s ∧
  s' ≡ₚ s ∧
  byTime.Swap s' i j = Some s.
Proof.
  unfold byTime.Swap, byTime.Len. intros H.
  destruct (s !! j) as [sj|] eqn:Hj; [|done].
  destruct (s !! i) as [si|] eqn:Hi; [|done].
  simpl in H. injection H as <-.
  pose proof (lookup_lt_Some _ _ _ Hi) as Hli.
  pose proof (lookup_lt_Some _ _ _ Hj) as Hlj.
  assert (<[j:=si]> (<[i:=sj]> s) !! i = Some sj) as Hi'.
  { destruct (decide (i = j)) as [->|Hne].
    - rewrite list_lookup_insert_eq by (by rewrite length_insert). congruence.
    - rewrite list_lookup_insert_ne by done. by rewrite list_lookup_insert_eq. }
  assert (<[j:=si]> (<[i:=sj]> s) !! j = Some si) as Hj'.
  { by rewrite list_lookup_insert_eq by (by rewrite length_insert). }
  split_and!.
  - done.
  - done.
  - intros k Hki Hkj. by rewrite !list_lookup_insert_ne.
  - by rewrite !length_insert.
  - by apply Permutation_insert_swap.
  - rewrite Hi', Hj'. simpl. f_equal. apply list_eq. intros k.
    destruct (decide (k = j)) as [->|Hkj].
    + rewrite list_lookup_insert_eq by (by rewrite !length_insert). done.
    + rewrite list_lookup_insert_ne by done.
      destruct (decide (k = i)) as [->|Hki].
      * rewrite list_lookup_insert_eq by (by rewrite !length_insert). done.
      * by rewrite !list_lookup_insert_ne.
Qed.

Lemma Swap_exchanges_witness :
  byTime.Swap [sample 1 1 0 6; sample 0 0 2 5] 0 1
  = Some [sample 0 0 2 5; sample 1 1 0 6].
Proof.
  exact (proj2 (proj2 (proj2 (proj2 (proj2
           (Swap_exchanges [sample 0 0 2 5; sample 1 1 0 6]
              [sample 1 1 0 6; sample 0 0 2 5] 0 1 eq_refl)))))).
Defined.

(** With an index out of range, and only then, [Swap] panics. *)
Lemma Swap_panics (s : list EntryPtr) (i j : nat) :
  byTime.Swap s i j = None ↔ (length s ≤ i ∨ length s ≤ j)%nat.
Proof.
  unfold byTime.Swap. rewrite <- !lookup_ge_None.
  destruct (s !! j), (s !! i); simpl; intuition discriminate.
Qed.

(** ** Registration *)

(** X3. The head of [Schedule].  It panics when no extra argument is
    given or the first one is not a slice; a slice with no element or
    with more than four is accepted whatever it holds and stores nothing,
    not even the arity; with one to four elements the first must be an
    [int32]; and whatever is stored, the schedule, the job, the two times
    and the identity of the entry are left alone. *)
Theorem Schedule_extArgs_edges (entry : Entry.t) (extArgs : list Value) :
  (extArgs = [] → Cron.Schedule_extArgs entry extArgs = None) ∧
  (∀ v rest, extArgs = v :: rest → assert_slice v = None →
             Cron.Schedule_extArgs entry extArgs = None) ∧
  (∀ inner rest, extArgs = VSlice inner :: rest →
                 inner = [] ∨ (4 < length inner)%nat →
                 Cron.Schedule_extArgs entry extArgs = Some entry) ∧
  (∀ v inner rest, extArgs = VSlice (v :: inner) :: rest →
                   (length inner < 4)%nat → assert_int32 v = None →
                   Cron.Schedule_extArgs entry extArgs = None) ∧
  (∀ n inner rest entry',
     extArgs = VSlice (VInt32 n :: inner) :: rest → (length inner < 4)%nat →
     Cron.Schedule_extArgs entry extArgs = Some entry' →
     Entry.ArgLen entry' = n) ∧
  (∀ entry', Cron.Schedule_extArgs entry extArgs = Some entry' →
             Entry.Schedule entry' = Entry.Schedule entry ∧
             Entry.Next entry' = Entry.Next entry ∧
             Entry.Prev entry' = Entry.Prev entry ∧
             Entry.Job entry' = Entry.Job entry ∧
             Entry.Id entry' = Entry.Id entry).
Proof.
  split_and!.
  - by intros ->.
  - intros v rest -> Hv. unfold Cron.Schedule_extArgs. simpl. by rewrite Hv.
  - intros inner rest -> [->|Hlen]; [done|].
    destruct inner as [|? [|? [|? [|? [|? ?]]]]]; simpl in Hlen; try lia; done.
  - intros v inner rest -> Hlen Hv. unfold Cron.Schedule_extArgs. simpl.
    destruct inner as [|? [|? [|? [|? ?]]]]; simpl in Hlen; try lia;
      by rewrite Hv.
  - intros n inner rest entry' -> Hlen. unfold Cron.Schedule_extArgs. simpl.
    destruct inner as [|? [|? [|? [|? ?]]]]; simpl in Hlen; try lia;
      intros H; simplify_option_eq; done.
  - apply Schedule_extArgs_fields.
Qed.

Lemma Schedule_extArgs_edges_witness :
  Cron.Schedule_extArgs (Entry.new never noop)
    [VSlice [VInt32 4; VString "a"; VString "b"; VString "c"; VString "d"]]
  = Some (Entry.new never noop).
Proof.
  refine (proj1 (proj2 (proj2 (Schedule_extArgs_edges _ _))) _ [] eq_refl _).
  right. simpl. lia.
Defined.

(** X4. The typed forms [AddFunc] ... [AddFunc6].  When the parser
    rejects the spec they return its error, leave the engine as it is and
    send nothing.  Otherwise they never panic, and the entry holds the
    parsed schedule, the function as job, zero times and exactly the
    arity, tag, task and params given (zero values for those not given):
    a stopped engine appends it under the next identity, a running one
    sends it to the loop. *)
Theorem AddFunc_forms (Parse : string → Schedule.t + Value) (c : Cron.t)
    (a : nat) (spec : string) (cmd : list Value → Exec unit)
    (n : Z) (tag task params : string) :
  (∀ err, Parse spec = inr err →
     Cron.AddFunc Parse c a spec cmd = Some (c, None, Some err) ∧
     Cron.AddFunc3 Parse c a spec cmd n = Some (c, None, Some err) ∧
     Cron.AddFunc4 Parse c a spec cmd n tag = Some (c, None, Some err) ∧
     Cron.AddFunc5 Parse c a spec cmd n tag task = Some (c, None, Some err) ∧
     Cron.AddFunc6 Parse c a spec cmd n tag task params
     = Some (c, None, Some err)) ∧
  (∀ schedule, Parse spec = inl schedule →
     let add n tag task params :=
       if Cron.running c then
         (c,
          Some (to_add (Ptr a (Entry.mk schedule GoTime.zero GoTime.zero
                                 (FuncJob cmd) 0 n tag task params))),
          None)
       else
         (Cron.mk (wrap32 (Cron.id c + 1))
            (Cron.entries c
             ++ [Ptr a (Entry.mk schedule GoTime.zero GoTime.zero
                          (FuncJob cmd) (Cron.id c) n tag task params)])
            false (Cron.ErrorLog c) (Cron.location c),
          None, None) in
     Cron.AddFunc Parse c a spec cmd = Some (add 0%Z "" "" "") ∧
     Cron.AddFunc3 Parse c a spec cmd n = Some (add n "" "" "") ∧
     Cron.AddFunc4 Parse c a spec cmd n tag = Some (add n tag "" "") ∧
     Cron.AddFunc5 Parse c a spec cmd n tag task = Some (add n tag task "") ∧
     Cron.AddFunc6 Parse c a spec cmd n tag task params
     = Some (add n tag task params)).
Proof.
  unfold Cron.AddFunc, Cron.AddFunc3, Cron.AddFunc4, Cron.AddFunc5,
    Cron.AddFunc6, Cron.AddJob.
  split.
  - by intros err ->.
  - intros schedule ->. unfold Cron.Schedule, Cron.Schedule_extArgs.
    destruct c as [i es [] l loc]; simpl; split_and!; reflexivity.
Qed.

Lemma AddFunc_forms_witness :
  Cron.AddFunc4 parse_sample (holding []) 0 "every day" (λ _, ret tt) 2 "tag"
  = Some (holding [], None, Some (VString "unknown spec")).
Proof.
  destruct (proj1 (AddFunc_forms parse_sample (holding []) 0 "every day"
                     (λ _, ret tt) 2 "tag" "" "")
              (VString "unknown spec") eq_refl) as (_ & _ & H & _).
  exact H.
Defined.

Lemma step_running_remove c a ev targetId :
  Cron.running c = true →
  (ev = CallRemove targetId ∨ (ev = CallRemoveAll ∧ targetId = (-1)%Z) ∨
   (ev = CallRemoveFirst ∧ targetId = (-2)%Z) ∨
   (ev = CallRemoveLast ∧ targetId = (-3)%Z)) →
  step (mkSys c a) ev
  = (mkSys (Cron.after (Cron.run_pass c a (from_remove targetId))) a,
     [Sent (to_remove targetId)]).
Proof.
  intros Hr Hev.
  destruct (remove_case c a targetId) as (_ & _ & Hsp & Hrep).
  destruct Hev as [->|[[-> ->]|[[-> ->]|[-> ->]]]]; unfold step;
    cbn [cron brk];
    unfold Cron.Remove, Cron.RemoveAll, Cron.RemoveFirst, Cron.RemoveLast;
    rewrite Hr; cbn [negb];
    unfold complete, deliver, obs_of, allocated, recv_of;
    rewrite Hsp, Hrep; simpl; by rewrite Nat.add_0_r.
Qed.

(** X5. The identity counter moves on a registration that gets past the
    type assertions, by one with wrap-around, on the stopped and on the
    running path alike, and on nothing else: a [Schedule] that panics
    consumes no identity, and no removal, [RemoveAll] included, gives an
    identity back or resets the counter. *)
Theorem identity_counter_steps (s : Sys) (ev : Call) :
  Cron.id (cron (step s ev).1)
  = match ev with
    | CallSchedule schedule cmd extArgs _ =>
        match Cron.Schedule_extArgs (Entry.new schedule cmd) extArgs with
        | Some _ => wrap32 (Cron.id (cron s) + 1)
        | None => Cron.id (cron s)
        end
    | _ => Cron.id (cron s)
    end.
Proof.
  destruct s as [c a].
  assert (∀ ev targetId,
            (ev = CallRemove targetId ∨ (ev = CallRemoveAll ∧ targetId = (-1)%Z) ∨
             (ev = CallRemoveFirst ∧ targetId = (-2)%Z) ∨
             (ev = CallRemoveLast ∧ targetId = (-3)%Z)) →
            Cron.running c = true →
            Cron.id (cron (step (mkSys c a) ev).1) = Cron.id c) as Hloop.
  { intros ev' targetId Hev Hr.
    rewrite (step_running_remove c a ev' targetId Hr Hev). simpl.
    by destruct (remove_case c a targetId) as (_ & -> & _). }
  destruct ev; cbn [cron].
  - unfold step, Cron.Start. simpl. by destruct (Cron.running c).
  - unfold step, Cron.Stop. simpl. by destruct (Cron.running c).
  - unfold step, Cron.Schedule. simpl.
    destruct (Cron.Schedule_extArgs _ extArgs); [|done]. simpl.
    by destruct (Cron.running c).
  - unfold step, Cron.Entries. simpl. by destruct (Cron.running c).
  - destruct (Cron.running c) eqn:Hr; [by eapply Hloop; eauto|].
    unfold step, Cron.Remove. simpl. rewrite Hr. simpl.
    by repeat case_match.
  - destruct (Cron.running c) eqn:Hr; [by eapply Hloop; eauto|].
    unfold step, Cron.RemoveAll. simpl. by rewrite Hr.
  - destruct (Cron.running c) eqn:Hr; [by eapply Hloop; eauto 6|].
    unfold step, Cron.RemoveFirst. simpl. rewrite Hr. simpl.
    by repeat case_match.
  - destruct (Cron.running c) eqn:Hr; [by eapply Hloop; eauto 6|].
    unfold step, Cron.RemoveLast. simpl. rewrite Hr. simpl.
    by repeat case_match.
  - unfold step. simpl. destruct (Cron.running c); [|done].
    unfold deliver, Cron.run_pass, Cron.run_select.
    by destruct (Cron.run_due _ _).
Qed.

Lemma filter_registered (id : Z) (es : list EntryPtr) (e : EntryPtr) :
  (∀ x, x ∈ es → Entry.Id (deref x) ≠ id) → Entry.Id (deref e) = id →
  filter (λ v, id ≠ Entry.Id (deref v)) (es ++ [e]) = es.
Proof.
  intros Hes He. rewrite filter_app, filter_absent by done.
  rewrite filter_cons_False by (intros H; by apply H).
  by rewrite filter_nil, app_nil_r.
Qed.

(** In a run of fewer than 2^31 registrations the counter is the number
    of registrations made and no entry holds it yet. *)
Lemma counter_fresh location evs :
  let r := exec (initial location) evs in
  (Z.of_nat (length (registrations r.2)) < 2 ^ 31)%Z →
  Cron.id (cron r.1) = Z.of_nat (length (registrations r.2)) ∧
  ∀ e, e ∈ Cron.entries (cron r.1) → Entry.Id (deref e) ≠ Cron.id (cron r.1).
Proof.
  intros r Hn.
  destruct (exec_issued (initial location) evs eq_refl) as (Hl & Hid & Hheld).
  fold r in Hl, Hid, Hheld. cbv zeta in Hl, Hid, Hheld.
  change (Cron.id (cron (initial location))) with 0%Z in Hl, Hid.
  change (ids (Cron.entries (cron (initial location)))) with (@nil Z) in Hheld.
  rewrite app_nil_l in Hheld. unfold ids in *. rewrite length_fmap in *.
  rewrite Z.add_0_l in Hid. rewrite wrap32_small in Hid by lia.
  split; [done|]. intros e He Heq.
  assert (Entry.Id (deref e)
          ∈ (λ e, Entry.Id (deref e)) <$> registrations r.2) as Hin.
  { eapply elem_of_submseteq; [|exact Hheld].
    by apply (list_elem_of_fmap_2 (λ e, Entry.Id (deref e))). }
  apply list_elem_of_lookup in Hin as [k Hk].
  pose proof (lookup_lt_Some _ _ _ Hk) as Hlt. rewrite length_fmap in Hlt.
  rewrite Hl, list_lookup_fmap, lookup_seq_lt in Hk by done.
  simpl in Hk. injection Hk as Hk. rewrite wrap32_small in Hk by lia. lia.
Qed.

Lemma exec_two s ev1 ev2 :
  (exec s [ev1; ev2]).1 = (step (step s ev1).1 ev2).1.
Proof.
  simpl. destruct (step s ev1) as [s1 o1]. simpl.
  by destruct (step s1 ev2).
Qed.

(** A registration that gets past the assertions, as a step. *)
Lemma step_schedule c a schedule cmd extArgs clock entry :
  Cron.Schedule_extArgs (Entry.new schedule cmd) extArgs = Some entry →
  let s1 := (step (mkSys c a) (CallSchedule schedule cmd extArgs clock)).1 in
  ∃ e, Entry.Id (deref e) = Cron.id c ∧
       Cron.entries (cron s1) ≡ₚ Cron.entries c ++ [e] ∧
       (Cron.running c = false → Cron.entries (cron s1) = Cron.entries c ++ [e]) ∧
       Cron.id (cron s1) = wrap32 (Cron.id c + 1) ∧
       Cron.running (cron s1) = Cron.running c.
Proof.
  intros Hentry. unfold step, Cron.Schedule. cbn [cron brk].
  rewrite Hentry. simpl.
  destruct (Cron.running c) eqn:Hr; simpl.
  - eexists. split_and!; [|apply Sort_perm|done..]. done.
  - eexists. split_and!; [|done..]. done.
Qed.

(** A removal by an identity that is not negative, as a step. *)
Lemma step_remove c a id :
  (0 ≤ id)%Z →
  let s1 := (step (mkSys c a) (CallRemove id)).1 in
  let kept := filter (λ v, id ≠ Entry.Id (deref v)) (Cron.entries c) in
  Cron.entries (cron s1) ≡ₚ kept ∧
  (Cron.running c = false → Cron.entries (cron s1) = kept) ∧
  Cron.id (cron s1) = Cron.id c ∧
  Cron.running (cron s1) = Cron.running c.
Proof.
  intros Hid. apply Z.leb_le in Hid.
  destruct (Cron.running c) eqn:Hr.
  - rewrite (step_running_remove c a _ id Hr) by auto. cbn [fst cron].
    unfold Cron.run_pass, Cron.run_select. rewrite Hid.
    destruct (Cron.entries c) as [|x xs] eqn:Hes; simpl.
    + by rewrite Hes.
    + split_and!; [apply Sort_perm|done..].
  - unfold step, Cron.Remove. cbn [cron brk]. rewrite Hr, Hid. simpl.
    destruct (Cron.entries c) as [|x xs] eqn:Hes; simpl.
    + by rewrite Hes.
    + done.
Qed.

(** X6. Register and remove.  In a run of fewer than 2^31 registrations,
    registering an entry and then removing the identity it was given
    leaves the registry holding the entries it held before, each as it
    was: in their order on a stopped engine, in sorted order on a running
    one.  The identity is not given back: the counter has moved on. *)
Theorem register_then_remove (location : Location) (evs : list Call)
    (schedule : Schedule.t) (cmd : Job.t) (extArgs : list Value)
    (clock : Time) :
  let r := exec (initial location) evs in
  (Z.of_nat (length (registrations r.2)) < 2 ^ 31)%Z →
  is_Some (Cron.Schedule_extArgs (Entry.new schedule cmd) extArgs) →
  let s2 := (exec r.1 [CallSchedule schedule cmd extArgs clock;
                       CallRemove (Cron.id (cron r.1))]).1 in
  Cron.entries (cron s2) ≡ₚ Cron.entries (cron r.1) ∧
  (Cron.running (cron r.1) = false →
   Cron.entries (cron s2) = Cron.entries (cron r.1)) ∧
  Cron.id (cron s2) = wrap32 (Cron.id (cron r.1) + 1) ∧
  Cron.running (cron s2) = Cron.running (cron r.1).
Proof.
  intros r Hn [entry Hentry] s2.
  destruct (counter_fresh location evs Hn) as [Hid Hfresh].
  fold r in Hid, Hfresh. subst s2.
  assert (0 ≤ Cron.id (cron r.1))%Z as Hpos by lia.
  rewrite exec_two. destruct r.1 as [c a]. cbn [cron] in *.
  destruct (step_schedule c a schedule cmd extArgs clock entry Hentry)
    as (e & He & Hp1 & Heq1 & Hid1 & Hr1).
  destruct (step _ (CallSchedule _ _ _ _)).1 as [c1 a1]. cbn [cron] in *.
  destruct (step_remove c1 a1 (Cron.id c) Hpos) as (Hp2 & Heq2 & Hid2 & Hr2).
  split_and!.
  - rewrite Hp2, Hp1. by rewrite filter_registered.
  - intros Hr. rewrite Heq2 by congruence. rewrite Heq1 by done.
    by rewrite filter_registered.
  - congruence.
  - congruence.
Qed.

Lemma register_then_remove_witness :
  Cron.entries
    (cron (exec (exec (initial "UTC") mixed_registrations).1
             [CallSchedule never noop [VSlice []] (at_ 20);
              CallRemove
                (Cron.id (cron (exec (initial "UTC") mixed_registrations).1))]).1)
  = Cron.entries (cron (exec (initial "UTC") mixed_registrations).1).
Proof.
  refine (proj1 (proj2 (register_then_remove "UTC" mixed_registrations never noop
                          [VSlice []] (at_ 20) _ _)) _).
  - vm_compute. reflexivity.
  - eexists. reflexivity.
  - reflexivity.
Defined.

(** ** The other removals *)

(** X7. [RemoveAll] leaves the registry empty on both paths, starts
    nothing, and keeps the counter, the running flag and the allocator
    as they are; on a stopped engine it sends nothing. *)
Theorem RemoveAll_clears (s : Sys) :
  let r := step s CallRemoveAll in
  Cron.entries (cron r.1) = [] ∧
  Cron.id (cron r.1) = Cron.id (cron s) ∧
  Cron.running (cron r.1) = Cron.running (cron s) ∧
  brk r.1 = brk s ∧
  spawns r.2 = [] ∧
  (Cron.running (cron s) = false → r.2 = []) ∧
  (Cron.running (cron s) = true → r.2 = [Sent (to_remove (-1))]).
Proof.
  destruct s as [c a]. cbn [cron brk]. destruct (Cron.running c) eqn:Hr.
  - rewrite (step_running_remove c a _ (-1) Hr) by auto. cbn [fst snd cron brk].
    unfold Cron.run_pass, Cron.run_select.
    destruct (Cron.entries c) as [|x xs] eqn:Hes; simpl.
    + by rewrite Hes, Hr.
    + by rewrite Hr.
  - unfold step, Cron.RemoveAll. cbn [cron brk]. rewrite Hr. simpl.
    by rewrite Hr.
Qed.

Lemma RemoveAll_clears_witness :
  (step running_a CallRemoveAll).2 = [Sent (to_remove (-1))].
Proof.
  destruct (RemoveAll_clears running_a) as (_ & _ & _ & _ & _ & _ & H).
  exact (H eq_refl).
Defined.



(** ** Starting, stopping and listing *)

(** X9. [Start] on a stopped engine: the loop is launched, and by the
    time it first waits every entry has a new [Next], the answer of its
    own schedule for the start time in the engine's location, whatever
    [Next] it held before.  Nothing else about an entry changes, [Prev]
    included; the registry is sorted; no job is started and the counter
    stays. *)
Theorem Start_retimes (s : Sys) (clock : Time) :
  Cron.running (cron s) = false →
  let now := In clock (Cron.location (cron s)) in
  let r := step s (CallStart clock) in
  r.2 = [Launched] ∧
  Cron.running (cron r.1) = true ∧
  Cron.id (cron r.1) = Cron.id (cron s) ∧
  brk r.1 = brk s ∧
  ordered byTime.Less (Cron.entries (cron r.1)) ∧
  Cron.entries (cron r.1)
  ≡ₚ (λ e, Ptr (addr e)
             (Entry.set_Next (Schedule.Next (Entry.Schedule (deref e)) now)
                (deref e)))
     <$> Cron.entries (cron s) ∧
  (∀ e', e' ∈ Cron.entries (cron r.1) →
     Entry.Next (deref e') = Schedule.Next (Entry.Schedule (deref e')) now ∧
     ∃ e, e ∈ Cron.entries (cron s) ∧ carried e e' ∧
          Entry.Prev (deref e') = Entry.Prev (deref e)).
Proof.
  intros Hr now r. destruct s as [c a]. cbn [cron brk] in *.
  assert (r = (mkSys (Cron.run_enter (Cron.set_running true c) clock) a,
               [Launched])) as ->.
  { subst r. unfold step, Cron.Start. cbn [cron brk]. by rewrite Hr. }
  cbn [fst snd cron brk].
  unfold Cron.run_enter, Cron.run_sort, Cron.run_prologue, Cron.now. simpl.
  fold now. split_and!; try done.
  - apply Sort_byTime_ordered.
  - apply Sort_perm.
  - intros e'. rewrite Sort_perm. intros (e & -> & He)%list_elem_of_fmap.
    split; [done|]. exists e. by repeat split.
Qed.

Lemma Start_retimes_witness :
  (step (mkSys (holding registry_a) 4) (CallStart (at_ 100))).2 = [Launched].
Proof.
  exact (proj1 (Start_retimes (mkSys (holding registry_a) 4) (at_ 100) eq_refl)).
Defined.

(** X10. [Stop] on a running engine: one message on the [stop] channel
    and the flag cleared.  The registry stays exactly as it was, order
    and [Next] times included, and so does the counter; no job is
    started.  From then on a timer firing does nothing, and a [Start]
    computes every [Next] anew. *)
Theorem Stop_keeps_registry (s : Sys) :
  Cron.running (cron s) = true →
  let r := step s CallStop in
  r.2 = [Sent to_stop] ∧
  r.1 = mkSys (Cron.set_running false (cron s)) (brk s) ∧
  Cron.entries (cron r.1) = Cron.entries (cron s) ∧
  Cron.id (cron r.1) = Cron.id (cron s) ∧
  (∀ t, step r.1 (Tick t) = (r.1, [])) ∧
  (∀ clock e', e' ∈ Cron.entries (cron (step r.1 (CallStart clock)).1) →
     Entry.Next (deref e')
     = Schedule.Next (Entry.Schedule (deref e'))
         (In clock (Cron.location (cron s)))).
Proof.
  intros Hr r. destruct s as [c a]. cbn [cron brk] in *.
  assert (r = (mkSys (Cron.set_running false c) a, [Sent to_stop])) as ->.
  { subst r. unfold step, Cron.Stop. cbn [cron brk]. rewrite Hr. loop_simpl.
    by rewrite Nat.add_0_r. }
  cbn [fst snd cron]. split_and!; try done.
  intros clock e'.
  unfold step, Cron.Start, Cron.run_enter, Cron.run_sort, Cron.run_prologue,
    Cron.now. simpl.
  rewrite Sort_perm. by intros (e & -> & He)%list_elem_of_fmap.
Qed.

Lemma Stop_keeps_registry_witness :
  (step running_a CallStop).1 = mkSys (holding registry_a) 4.
Proof.
  exact (proj1 (proj2 (Stop_keeps_registry running_a eq_refl))).
Defined.

(** X11. [Entries] only reads: on both paths the engine is left as it
    is, no job is started and nothing is registered; the call allocates
    one record per entry.  Two listings in a row return records with the
    same fields, and no record of the second is a record of the first. *)
Theorem Entries_only_reads (s : Sys) :
  let r := step s CallEntries in
  let r' := step r.1 CallEntries in
  cron r.1 = cron s ∧
  brk r.1 = (brk s + length (Cron.entries (cron s)))%nat ∧
  spawns r.2 = [] ∧
  registrations r.2 = [] ∧
  (Cron.running (cron s) = false → r.2 = replies r.2 ≫= λ es, [Replied es]) ∧
  (Cron.running (cron s) = true →
   r.2 = Sent to_snapshot :: (replies r.2 ≫= λ es, [Replied es])) ∧
  ∃ l l', replies r.2 = [l] ∧ replies r'.2 = [l'] ∧
          length l = length (Cron.entries (cron s)) ∧
          deref <$> l' = deref <$> l ∧
          ∀ x y, x ∈ l → y ∈ l' → addr x ≠ addr y.
Proof.
  intros r r'. destruct s as [c a]. cbn [cron brk] in *.
  assert (∀ a0, ∃ pre,
            step (mkSys c a0) CallEntries
            = (mkSys c (a0 + length (Cron.entries c)),
               pre ++ [Replied (Cron.entrySnapshot c a0)]) ∧
            spawns pre = [] ∧ registrations pre = [] ∧ replies pre = [] ∧
            (Cron.running c = false → pre = []) ∧
            (Cron.running c = true → pre = [Sent to_snapshot])) as Hstep.
  { intros a0. unfold step, Cron.Entries. cbn [cron brk].
    destruct (Cron.running c) eqn:Hr; loop_simpl.
    - exists [Sent to_snapshot]. unfold Cron.entrySnapshot.
      by rewrite ?length_imap.
    - exists []. unfold Cron.entrySnapshot. by rewrite ?length_imap. }
  destruct (Hstep a) as (pre & Hr1 & Hs1 & Hg1 & Hp1 & Hoff & Hon).
  subst r'. subst r. rewrite Hr1. cbn [fst snd cron brk].
  destruct (Hstep (a + length (Cron.entries c))%nat)
    as (pre' & Hr2 & _ & _ & Hp2 & _). rewrite Hr2. cbn [snd].
  unfold spawns, registrations, replies in *. rewrite !omap_app.
  rewrite Hs1, Hg1, Hp1, Hp2. simpl. split_and!; try done.
  - intros Hr. by rewrite (Hoff Hr).
  - intros Hr. by rewrite (Hon Hr).
  - eexists _, _. split_and!; [done|done|apply length_imap| |].
    + apply list_eq. intros i. unfold Cron.entrySnapshot.
      rewrite !list_lookup_fmap, !list_lookup_imap.
      by destruct (Cron.entries c !! i).
    + unfold Cron.entrySnapshot.
      intros x y [i Hi]%list_elem_of_lookup [j Hj]%list_elem_of_lookup.
      rewrite list_lookup_imap in Hi, Hj.
      pose proof (lookup_lt_is_Some_2 (Cron.entries c) i) as Hlt.
      destruct (Cron.entries c !! i) as [ei|] eqn:Hei; [|done].
      destruct (Cron.entries c !! j) as [ej|] eqn:Hej; [|done].
      apply lookup_lt_Some in Hei.
      injection Hi as <-. injection Hj as <-. simpl. lia.
Qed.

Lemma Entries_only_reads_witness :
  (step running_a CallEntries).2
  = Sent to_snapshot
    :: (replies (step running_a CallEntries).2 ≫= λ es, [Replied es]).
Proof.
  destruct (Entries_only_reads running_a) as (_ & _ & _ & _ & _ & H & _).
  exact (H eq_refl).
Defined.

(** X12. Which calls move the running flag, and what no call moves: the
    flag is set by [Start], cleared by [Stop] and left alone by
    everything else, a firing of the timer included; the location and
    the error log of an engine are the same after any run. *)
Theorem flag_and_settings :
  (∀ s ev,
     Cron.running (cron (step s ev).1)
     = match ev with
       | CallStart _ => true
       | CallStop => false
       | _ => Cron.running (cron s)
       end) ∧
  (∀ s evs,
     Cron.Location (cron (exec s evs).1) = Cron.Location (cron s) ∧
     Cron.ErrorLog (cron (exec s evs).1) = Cron.ErrorLog (cron s)) ∧
  (∀ location evs,
     Cron.Location (cron (exec (initial location) evs).1) = location ∧
     Cron.ErrorLog (cron (exec (initial location) evs).1) = None).
Proof.
  assert (∀ s ev,
            Cron.running (cron (step s ev).1)
            = match ev with
              | CallStart _ => true
              | CallStop => false
              | _ => Cron.running (cron s)
              end ∧
            Cron.location (cron (step s ev).1) = Cron.location (cron s) ∧
            Cron.ErrorLog (cron (step s ev).1) = Cron.ErrorLog (cron s)) as Hstep.
  { intros [c a] ev.
    assert (∀ ev targetId,
              (ev = CallRemove targetId ∨
               (ev = CallRemoveAll ∧ targetId = (-1)%Z) ∨
               (ev = CallRemoveFirst ∧ targetId = (-2)%Z) ∨
               (ev = CallRemoveLast ∧ targetId = (-3)%Z)) →
              Cron.running c = true →
              Cron.running (cron (step (mkSys c a) ev).1) = Cron.running c ∧
              Cron.location (cron (step (mkSys c a) ev).1) = Cron.location c ∧
              Cron.ErrorLog (cron (step (mkSys c a) ev).1) = Cron.ErrorLog c)
      as Hloop.
    { intros ev' targetId Hev Hr.
      rewrite (step_running_remove c a ev' targetId Hr Hev). simpl.
      unfold Cron.run_pass, Cron.run_select. by repeat case_match. }
    destruct ev; cbn [cron].
    - unfold step, Cron.Start. cbn [cron brk].
      destruct (Cron.running c) eqn:Hr; simpl; by rewrite ?Hr.
    - unfold step, Cron.Stop. cbn [cron brk].
      destruct (Cron.running c) eqn:Hr; loop_simpl; by rewrite ?Hr.
    - unfold step, Cron.Schedule. cbn [cron brk].
      destruct (Cron.Schedule_extArgs _ extArgs); [|done]. simpl.
      destruct (Cron.running c) eqn:Hr; simpl; by rewrite ?Hr.
    - unfold step, Cron.Entries. cbn [cron brk].
      destruct (Cron.running c) eqn:Hr; loop_simpl; by rewrite ?Hr.
    - destruct (Cron.running c) eqn:Hr; [by eapply Hloop; eauto|].
      unfold step, Cron.Remove. simpl. rewrite Hr. simpl.
      by repeat case_match.
    - destruct (Cron.running c) eqn:Hr; [by eapply Hloop; eauto|].
      unfold step, Cron.RemoveAll. simpl. by rewrite Hr.
    - destruct (Cron.running c) eqn:Hr; [by eapply Hloop; eauto 6|].
      unfold step, Cron.RemoveFirst. simpl. rewrite Hr. simpl.
      by repeat case_match.
    - destruct (Cron.running c) eqn:Hr; [by eapply Hloop; eauto 6|].
      unfold step, Cron.RemoveLast. simpl. rewrite Hr. simpl.
      by repeat case_match.
    - unfold step. simpl. destruct (Cron.running c) eqn:Hr; [|done].
      unfold deliver, Cron.run_pass, Cron.run_select.
      by destruct (Cron.run_due _ _). }
  assert (∀ s evs,
            Cron.Location (cron (exec s evs).1) = Cron.Location (cron s) ∧
            Cron.ErrorLog (cron (exec s evs).1) = Cron.ErrorLog (cron s)) as Hexec.
  { intros s evs. revert s. unfold Cron.Location.
    induction evs as [|ev evs IH]; intros s; [done|]. simpl.
    destruct (Hstep s ev) as (_ & Hl & He).
    destruct (step s ev) as [s1 o1]. specialize (IH s1).
    destruct (exec s1 evs) as [s2 o2]. simpl in *.
    destruct IH as [-> ->]. done. }
  split_and!.
  - intros s ev. apply Hstep.
  - done.
  - intros location evs. apply (Hexec (initial location)).
Qed.

(** ** When jobs are started *)

Lemma dispatch_cases e :
  (¬ (0 ≤ Entry.ArgLen (deref e) ≤ 4)%Z ∧ Cron.dispatch e = []) ∨
  ((0 ≤ Entry.ArgLen (deref e) ≤ 4)%Z ∧
   Cron.dispatch e
   = [Go e (Entry.Job (deref e))
         (take (Z.to_nat (Entry.ArgLen (deref e))) (aux_values e))]).
Proof.
  destruct (decide (0 ≤ Entry.ArgLen (deref e) ≤ 4)%Z) as [Hn|Hn].
  - right. split; [done|]. by apply dispatch_in_range.
  - left. split; [done|]. by apply dispatch_out_of_range.
Qed.

Lemma step_tick c a t :
  Cron.running c = true →
  step (mkSys c a) (Tick t)
  = (mkSys (Cron.run_sort
              (Cron.set_entries
                 (Cron.run_due (In t (Cron.location c)) (Cron.entries c)).1 c))
       a,
     Spawned <$> (Cron.run_due (In t (Cron.location c)) (Cron.entries c)).2).
Proof.
  intros Hr. unfold step. cbn [cron brk]. rewrite Hr. loop_simpl.
  destruct (Cron.run_due _ _) as [es spawned]. simpl.
  by rewrite app_nil_r, Nat.add_0_r.
Qed.

(** Only a firing of the timer starts jobs. *)
Lemma step_spawns_nil s ev :
  (∀ t, ev ≠ Tick t) → spawns (step s ev).2 = [].
Proof.
  intros Hev. pose proof (step_has_kind s ev) as Hkind.
  destruct Hkind as [es1 _ _ _ _ _ _ _|_ _ _ _ _ H|e _ _ _ _ _ _ _ _ H];
    [|done..].
  destruct s as [c a].
  destruct ev; unfold step; cbn [cron brk].
  - unfold Cron.Start. by destruct (Cron.running c).
  - unfold Cron.Stop. by destruct (Cron.running c); loop_simpl.
  - unfold Cron.Schedule.
    destruct (Cron.Schedule_extArgs _ extArgs); [|done]. simpl.
    destruct (Cron.running c); simpl.
    + unfold registered. by case_match.
    + unfold registered. by case_match.
  - unfold Cron.Entries. by destruct (Cron.running c); loop_simpl.
  - unfold Cron.Remove.
    destruct (Cron.running c); repeat case_match; loop_simpl;
      repeat case_match; done.
  - unfold Cron.RemoveAll.
    destruct (Cron.running c); repeat case_match; loop_simpl;
      repeat case_match; done.
  - unfold Cron.RemoveFirst.
    destruct (Cron.running c); repeat case_match; loop_simpl;
      repeat case_match; done.
  - unfold Cron.RemoveLast.
    destruct (Cron.running c); repeat case_match; loop_simpl;
      repeat case_match; done.
  - by destruct (Hev t).
Qed.

(** X13. Where a job goroutine can come from.  If an event starts a
    goroutine, the event is a firing of the timer on a running engine,
    the goroutine is for an entry of the registry whose [Next] is a real
    time at or before the time the timer delivered, taken in the
    engine's location, that entry's [ArgLen] is one of 0..4, and the
    goroutine runs the entry's own job on the first [ArgLen] of its
    identity, tag, task and params.  No call of the API starts a job:
    not a registration, not [Start], not a removal, not a listing. *)
Theorem jobs_start_on_timer_only (s : Sys) (ev : Call) (sp : Spawn) :
  sp ∈ spawns (step s ev).2 →
  Cron.running (cron s) = true ∧
  ∃ t, ev = Tick t ∧
       by_entry sp ∈ Cron.entries (cron s) ∧
       due (In t (Cron.location (cron s))) (by_entry sp) ∧
       (0 ≤ Entry.ArgLen (deref (by_entry sp)) ≤ 4)%Z ∧
       sp = Go (by_entry sp) (Entry.Job (deref (by_entry sp)))
              (take (Z.to_nat (Entry.ArgLen (deref (by_entry sp))))
                 (aux_values (by_entry sp))).
Proof.
  intros Hsp.
  assert ((∃ t, ev = Tick t) ∨ ∀ t, ev ≠ Tick t) as [[t ->]|Hev]
    by (destruct ev; eauto; right; done).
  2: { rewrite step_spawns_nil in Hsp by done. by apply elem_of_nil in Hsp. }
  destruct s as [c a]. cbn [cron].
  destruct (Cron.running c) eqn:Hr.
  2: { unfold step in Hsp. cbn [cron brk] in Hsp. rewrite Hr in Hsp.
       by apply elem_of_nil in Hsp. }
  split; [done|]. exists t. split; [done|].
  rewrite (step_tick c a t Hr) in Hsp. cbn [snd] in Hsp.
  rewrite spawns_Spawned in Hsp.
  destruct (run_due_spawned _ _ _ Hsp) as [Hdue Hin].
  split; [done|]. split; [done|]. split.
  - destruct (run_due_spec (In t (Cron.location c)) (Cron.entries c))
      as (k & _ & _ & Heq).
    rewrite Heq in Hsp. cbn [snd] in Hsp.
    apply list_elem_of_bind in Hsp as (e & Hsp & _).
    pose proof (dispatch_by_entry _ _ Hsp) as He. subst e.
    destruct (dispatch_cases (by_entry sp)) as [[_ Hd]|[Hn _]]; [|done].
    rewrite Hd in Hsp. by apply elem_of_nil in Hsp.
  - destruct (run_due_spec (In t (Cron.location c)) (Cron.entries c))
      as (k & _ & _ & Heq).
    rewrite Heq in Hsp. cbn [snd] in Hsp.
    apply list_elem_of_bind in Hsp as (e & Hsp & _).
    pose proof (dispatch_by_entry _ _ Hsp) as He. subst e.
    destruct (dispatch_cases (by_entry sp)) as [[_ Hd]|[_ Hd]];
      rewrite Hd in Hsp.
    + by apply elem_of_nil in Hsp.
    + by apply list_elem_of_singleton in Hsp.
Qed.

Lemma jobs_start_on_timer_only_witness :
  Cron.running (cron running_a) = true ∧
  ∃ t, Tick (at_ 6) = Tick t ∧
       sample 0 0 2 5 ∈ Cron.entries (cron running_a) ∧
       due (In t "UTC") (sample 0 0 2 5) ∧
       (0 ≤ 2 ≤ 4)%Z ∧
       Go (sample 0 0 2 5) noop [VInt32 0; VString "tag"]
       = Go (sample 0 0 2 5) noop [VInt32 0; VString "tag"].
Proof.
  apply (jobs_start_on_timer_only running_a (Tick (at_ 6))
           (Go (sample 0 0 2 5) noop [VInt32 0; VString "tag"])).
  vm_compute. apply list_elem_of_here.
Defined.

(** ** One record per slot *)

Lemma retimed_addrs es es1 :
  Forall2 retimed es es1 → addr <$> es1 = addr <$> es.
Proof.
  induction 1 as [|e e' es es' [[Ha _] _] _ IH]; [done|].
  csimpl. by rewrite Ha, IH.
Qed.

Lemma kind_distinct s ev s' obs :
  step_kind s ev s' obs →
  allocated_below s → NoDup (addr <$> Cron.entries (cron s)) →
  NoDup (addr <$> Cron.entries (cron s')).
Proof.
  intros Hkind Hbelow Hnd.
  destruct Hkind as [es1 _ H2 Hp _ _ _ _|_ Hsub _ _ _ _|e _ Hp Ha _ _ _ _ _ _].
  - rewrite Hp. by rewrite (retimed_addrs _ _ H2).
  - eapply submseteq_NoDup; [|exact Hnd]. by apply fmap_submseteq.
  - rewrite Hp, fmap_app. apply NoDup_app. split_and!; [done| |].
    + intros x (e0 & -> & He0)%list_elem_of_fmap Hx. simpl in Hx.
      apply list_elem_of_singleton in Hx.
      unfold allocated_below in Hbelow. rewrite Forall_forall in Hbelow.
      specialize (Hbelow _ He0). lia.
    + simpl. apply NoDup_singleton.
Qed.

Lemma exec_distinct s evs :
  allocated_below s → NoDup (addr <$> Cron.entries (cron s)) →
  NoDup (addr <$> Cron.entries (cron (exec s evs).1)).
Proof.
  revert s. induction evs as [|ev evs IH]; intros s Hb Hs; [done|]. simpl.
  pose proof (step_has_kind s ev) as Hk.
  destruct (step s ev) as [s1 o1]. simpl in Hk.
  specialize (IH s1 (kind_allocated_below _ _ _ _ Hk Hb)
                (kind_distinct _ _ _ _ Hk Hb Hs)).
  by destruct (exec s1 evs).
Qed.

Lemma dispatch_sublist (l : list EntryPtr) :
  (λ sp, addr (by_entry sp)) <$> (l ≫= Cron.dispatch) `sublist_of` addr <$> l.
Proof.
  induction l as [|e l IH]; [done|]. csimpl. rewrite fmap_app.
  destruct (dispatch_cases e) as [[_ ->]|[_ ->]]; simpl.
  - by apply sublist_cons.
  - by apply sublist_skip.
Qed.

(** X14. In every run from a new engine no two slots of the registry
    hold the same record, and one firing of the timer starts at most one
    goroutine for a record: the goroutines of a firing are for distinct
    entries, in the order of the registry. *)
Theorem one_goroutine_per_entry (location : Location) (evs : list Call) :
  let s := (exec (initial location) evs).1 in
  NoDup (addr <$> Cron.entries (cron s)) ∧
  ∀ t, (λ sp, addr (by_entry sp)) <$> spawns (step s (Tick t)).2
       `sublist_of` addr <$> Cron.entries (cron s) ∧
       NoDup ((λ sp, addr (by_entry sp)) <$> spawns (step s (Tick t)).2).
Proof.
  intros s.
  assert (NoDup (addr <$> Cron.entries (cron s))) as Hnd.
  { apply exec_distinct; [constructor|apply NoDup_nil_2]. }
  split; [done|]. intros t.
  assert ((λ sp, addr (by_entry sp)) <$> spawns (step s (Tick t)).2
          `sublist_of` addr <$> Cron.entries (cron s)) as Hsub.
  { destruct s as [c a]. cbn [cron] in *.
    destruct (Cron.running c) eqn:Hr.
    - rewrite (step_tick c a t Hr). cbn [snd]. rewrite spawns_Spawned.
      destruct (run_due_spec (In t (Cron.location c)) (Cron.entries c))
        as (k & _ & _ & ->). cbn [snd].
      etrans; [apply dispatch_sublist|].
      apply fmap_sublist, sublist_take.
    - unfold step. cbn [cron brk]. rewrite Hr. apply sublist_nil_l. }
  split; [done|]. by eapply sublist_NoDup; [exact Hnd|].
Qed.

(** ** The timer the loop arms *)



(** ** Schedules that keep the contract *)

Lemma run_due_none now es :
  Forall (not_due now) es → Cron.run_due now es = (es, []).
Proof.
  destruct 1 as [|e es He _]; [done|]. simpl.
  apply break_iff in He. by rewrite He.
Qed.

(** X16. Firing under the contract of [Schedule.Next].  If every
    entry's schedule answers a time later than the one it is given, or
    the zero time, then after the loop has handled a firing of the timer
    no entry is due at the time the timer delivered: each one fired has
    moved on.  A second firing for the same or an earlier time starts no
    job and leaves the registry holding the same records. *)
Theorem tick_settles (s : Sys) (t : Time) :
  Cron.running (cron s) = true →
  ordered byTime.Less (Cron.entries (cron s)) →
  Forall (λ e, advances (Entry.Schedule (deref e))) (Cron.entries (cron s)) →
  let now := In t (Cron.location (cron s)) in
  let s1 := (step s (Tick t)).1 in
  Forall (not_due now) (Cron.entries (cron s1)) ∧
  ∀ t', (instant t' ≤ instant t)%Z →
        (step s1 (Tick t')).2 = [] ∧
        Cron.entries (cron (step s1 (Tick t')).1) ≡ₚ Cron.entries (cron s1).
Proof.
  intros Hr Hord Hadv now s1. destruct s as [c a]. cbn [cron] in *.
  assert (Forall (not_due now) (Cron.entries (cron s1))) as Hsettled.
  { subst s1. rewrite (step_tick c a t Hr). cbn [fst cron].
    unfold Cron.run_sort. simpl. rewrite Sort_perm. fold now.
    destruct (timer_pass c a t Hord) as (k & Hk & Hd & Hafter & _).
    fold now in Hk, Hd, Hafter. unfold Cron.run_select in Hafter.
    fold now in Hafter.
    destruct (Cron.run_due now (Cron.entries c)) as [es spawned].
    simpl in Hafter. injection Hafter as ->. simpl.
    apply Forall_app. split; [|done].
    apply Forall_fmap, Forall_forall. intros e He. simpl.
    rewrite Forall_forall in Hadv.
    specialize (Hadv e (in_take _ _ _ He) now).
    unfold not_due, sentinel. simpl. destruct Hadv as [Hz|Hlt]; auto. }
  split; [done|]. intros t' Hle.
  assert (Cron.running (cron s1) = true ∧
          Cron.location (cron s1) = Cron.location c) as [Hr1 Hl1].
  { subst s1. rewrite (step_tick c a t Hr). by simpl. }
  destruct s1 as [c1 a1]. cbn [cron] in *.
  rewrite (step_tick c1 a1 t' Hr1). cbn [fst snd cron].
  rewrite run_due_none.
  - split; [done|]. unfold Cron.run_sort. simpl. apply Sort_perm.
  - eapply Forall_impl; [exact Hsettled|]. intros e.
    unfold not_due, now. rewrite Hl1. simpl. intros [?|?]; [left; lia|by right].
Qed.

Lemma tick_settles_witness :
  (step (step running_a (Tick (at_ 6))).1 (Tick (at_ 6))).2 = [].
Proof.
  refine (proj1 (proj2 (tick_settles running_a (at_ 6) eq_refl
                          registry_a_ordered _) (at_ 6) _)).
  - unfold running_a, registry_a. simpl.
    repeat (apply List.Forall_cons; [intros t; right; simpl; lia|]).
    apply List.Forall_nil.
  - reflexivity.
Defined.

(** ** What a registration leaves *)

(** X17. A registration as one step.  When the type assertions fail
    the call panics and the engine is as before: registry, counter and
    flag untouched, and nothing sent even to a running loop.  When they
    pass, one record is appended at a new address, under the identity the
    counter showed, with the schedule and the job given and a zero
    [Prev].  On a stopped engine it goes to the end of the registry with
    a zero [Next], which it keeps until [Start]; on a running engine it
    is sent to the loop, which gives it the schedule's answer for the
    current time in the engine's location and sorts it into place. *)
Theorem Schedule_registers (s : Sys) (schedule : Schedule.t) (cmd : Job.t)
    (extArgs : list Value) (clock : Time) :
  let r := step s (CallSchedule schedule cmd extArgs clock) in
  (Cron.Schedule_extArgs (Entry.new schedule cmd) extArgs = None →
   r = (mkSys (cron s) (S (brk s)), [Panicked])) ∧
  (∀ entry,
     Cron.Schedule_extArgs (Entry.new schedule cmd) extArgs = Some entry →
     let next :=
       if Cron.running (cron s)
       then Schedule.Next schedule (In clock (Cron.location (cron s)))
       else GoTime.zero in
     let e := Ptr (brk s)
                (Entry.set_Next next (Entry.set_Id (Cron.id (cron s)) entry)) in
     registrations r.2 = [e] ∧
     Cron.entries (cron r.1) ≡ₚ Cron.entries (cron s) ++ [e] ∧
     brk r.1 = S (brk s) ∧
     Entry.Schedule (deref e) = schedule ∧
     Entry.Job (deref e) = cmd ∧
     Entry.Prev (deref e) = GoTime.zero ∧
     (Cron.running (cron s) = false →
      Cron.entries (cron r.1) = Cron.entries (cron s) ++ [e] ∧
      r.2 = [Registered e]) ∧
     (Cron.running (cron s) = true →
      r.2 = [Sent (to_add (Ptr (brk s) entry)); Registered e] ∧
      ordered byTime.Less (Cron.entries (cron r.1)))).
Proof.
  intros r. destruct s as [c a]. cbn [cron brk] in *. split.
  - intros Hnone. subst r. unfold step, Cron.Schedule. cbn [cron brk].
    by rewrite Hnone.
  - intros entry Hentry. cbv zeta.
    destruct (Schedule_extArgs_fields _ _ _ Hentry)
      as (Hsch & Hnext & Hprev & Hjob & _).
    simpl in Hsch, Hnext, Hprev, Hjob.
    subst r. unfold step, Cron.Schedule. cbn [cron brk]. rewrite Hentry.
    destruct entry as [sch nx pv jb i n tg tk pr].
    simpl in Hsch, Hnext, Hprev, Hjob. subst sch nx pv jb.
    destruct (Cron.running c) eqn:Hr; simpl.
    + rewrite registered_snoc. unfold Cron.now.
      split_and!; try done.
      * apply Sort_perm.
      * intros _. split; [done|]. apply Sort_byTime_ordered.
    + rewrite registered_snoc. by split_and!.
Qed.

Lemma Schedule_registers_witness :
  step running_a (CallSchedule never noop [VOther 0] (at_ 3))
  = (mkSys (cron running_a) 5, [Panicked]).
Proof.
  exact (proj1 (Schedule_registers running_a never noop [VOther 0] (at_ 3))
           eq_refl).
Defined.

(** ** Listing a running engine *)

Lemma entrySnapshot_Next c a i x :
  Cron.entrySnapshot c a !! i = Some x →
  ∃ e, Cron.entries c !! i = Some e ∧
       Entry.Next (deref x) = Entry.Next (deref e).
Proof.
  unfold Cron.entrySnapshot. rewrite list_lookup_imap.
  destruct (Cron.entries c !! i) as [e|]; [|done].
  intros [= <-]. by exists e.
Qed.

(** X18. What [Entries] returns while the loop runs is in firing
    order, in every run from a new engine: no record of the listing is
    less, by [byTime.Less], than one listed before it, so the real [Next]
    times never decrease along the listing and the records with a zero
    [Next] come last. *)
Theorem running_listing_in_firing_order (location : Location) (evs : list Call) :
  let s := (exec (initial location) evs).1 in
  Cron.running (cron s) = true →
  ∃ l, Entries_result s = [l] ∧
       (∀ i j x y, l !! i = Some x → l !! j = Some y → (i < j)%nat →
                   byTime.Less y x = false) ∧
       sentinels_last l ∧
       (∀ i j x y, l !! i = Some x → l !! j = Some y → (i < j)%nat →
                   sentinel y = false →
                   sentinel x = false ∧
                   (instant (Entry.Next (deref x))
                    ≤ instant (Entry.Next (deref y)))%Z).
Proof.
  intros s Hr.
  assert (ordered byTime.Less (Cron.entries (cron s))) as Hord.
  { apply (exec_sorted_while_running (initial location) evs); [|done].
    by intros ?. }
  exists (Cron.entrySnapshot (cron s) (brk s)).
  assert (∀ i j x y,
            Cron.entrySnapshot (cron s) (brk s) !! i = Some x →
            Cron.entrySnapshot (cron s) (brk s) !! j = Some y → (i < j)%nat →
            byTime.Less y x = false) as Hless.
  { intros i j x y Hi Hj Hij.
    apply entrySnapshot_Next in Hi as (ex & Hi & Hx).
    apply entrySnapshot_Next in Hj as (ey & Hj & Hy).
    pose proof (ordered_lookup _ _ _ _ _ _ Hord Hi Hj Hij) as H.
    unfold byTime.Less in *. by rewrite Hx, Hy. }
  split_and!.
  - apply Entries_result_snapshot.
  - exact Hless.
  - intros i j x y Hi Hj Hx Hy.
    destruct (decide (j < i)%nat) as [|Hn]; [done|exfalso].
    destruct (decide (i = j)) as [->|Hne].
    + rewrite Hi in Hj. injection Hj as ->. congruence.
    + assert (byTime.Less y x = false) as Hyx
        by (eapply (Hless i j); [done..|lia]).
      rewrite Less_real_sentinel in Hyx; done.
  - intros i j x y Hi Hj Hij Hy.
    pose proof (Hless i j x y Hi Hj Hij) as H. revert H Hy.
    unfold byTime.Less, sentinel, IsZero, Before.
    repeat case_match; try done; intros; split; try done; lia.
Qed.

Lemma running_listing_in_firing_order_witness :
  ∃ l, Entries_result
         (exec (initial "UTC") (CallStart (at_ 0) :: two_registrations)).1
       = [l] ∧
       sentinels_last l.
Proof.
  destruct (running_listing_in_firing_order "UTC"
              (CallStart (at_ 0) :: two_registrations) eq_refl)
    as (l & Hl & _ & Hs & _).
  exists l. by split.
Defined.
